(** * ProtectedValue: a value behind a reader-writer lock

  Shallow embedding of [protected_value.hpp] (classes [ConstPtr],
  [MutablePtr], [Protected]) and of the demonstration program
  [example.cpp], with the properties of the specification stated over it.

  Objects live at addresses of a store; a pointer is an address (or null),
  a reference is an address.  Member functions are computations in a small
  state monad whose results say whether the call returned, had to wait for
  the lock, or has no defined behaviour. *)

From Stdlib Require Import PrimFloat.
From stdpp Require Import base option list gmap.

Set Default Proof Using "Type".

(** ** Results of a call *)

Inductive outcome (A : Type) : Type :=
| Done (a : A)      (* the call returned *)
| Blocked           (* the calling thread waits for the lock: the call has not returned *)
| Undefined         (* the C++ standard gives the call no behaviour *)
| IllFormed.        (* the call names a member that cannot be compiled: it selects a
                     function the callee's type does not have, or its definition
                     matches no declaration of its class *)
Arguments Done {A} a.
Arguments Blocked {A}.
Arguments Undefined {A}.
Arguments IllFormed {A}.

Definition addr := positive.

(** ** std::shared_mutex

  The lock is the standard library's [std::shared_mutex] ([using Mutex =
  std::shared_mutex]); the repository does not implement it.  Its state is
  the number of shared holders and whether it is held exclusively. *)
Module Mutex.

Record t : Type := Build { readers : nat; writer : bool }.

(* a default-constructed std::shared_mutex *)
Definition unlocked : t := {| readers := 0; writer := false |}.

Definition is_free (m : t) : bool := negb (writer m) && (readers m =? 0)%nat.

(* the member functions the header calls *)
Inductive call : Set := lock | unlock | lock_shared | unlock_shared.

Definition do_lock (m : t) : outcome t :=
  if is_free m then Done {| readers := 0; writer := true |} else Blocked.

(* unlocking a mutex that is not held exclusively is undefined *)
Definition do_unlock (m : t) : outcome t :=
  if writer m then Done {| readers := readers m; writer := false |} else Undefined.

Definition do_lock_shared (m : t) : outcome t :=
  if writer m then Blocked else Done {| readers := S (readers m); writer := false |}.

(* releasing a shared hold nobody has is undefined *)
Definition do_unlock_shared (m : t) : outcome t :=
  match readers m with
  | O => Undefined
  | S n => Done {| readers := n; writer := writer m |}
  end.

Definition perform (c : call) : t → outcome t :=
  match c with
  | lock => do_lock
  | unlock => do_unlock
  | lock_shared => do_lock_shared
  | unlock_shared => do_unlock_shared
  end.

#[global] Instance call_eq_dec : EqDecision call.
Proof. solve_decision. Defined.

End Mutex.

(** ** The type of the payload

  [Protected<T>] needs [T()] and copies and moves of [T].  A copy equals
  its source; a move gives the destination the source's value and leaves
  in the source whatever [T] leaves in a moved-from object. *)
Class Value (T : Type) : Type := {
  value_init : T;          (* T() *)
  moved_from : T → T;      (* the source after std::move(source) was consumed *)
}.

(** ** The store *)

Section Store.
Context {T : Type}.

Record State : Type := mkState {
  mutexes : gmap addr Mutex.t;           (* the Mutex objects *)
  objects : gmap addr T;                 (* the objects of type T *)
  log : list (addr * Mutex.call);        (* completed lock calls, oldest first *)
}.

Definition M (A : Type) : Type := State → outcome (A * State).

Definition ret {A} (a : A) : M A := λ s, Done (a, s).

Definition bind {A B} (c : M A) (k : A → M B) : M B :=
  λ s, match c s with
       | Done (a, s') => k a s'
       | Blocked => Blocked
       | Undefined => Undefined
       | IllFormed => IllFormed
       end.

Definition empty_store : State := mkState ∅ ∅ [].

(* m.lock(), m.unlock(), m.lock_shared(), m.unlock_shared() on the Mutex at [m] *)
Definition call_mutex (m : addr) (c : Mutex.call) : M unit := λ s,
  match mutexes s !! m with
  | None => Undefined
  | Some st =>
      match Mutex.perform c st with
      | Done st' => Done (tt, mkState (<[m := st']> (mutexes s)) (objects s) (log s ++ [(m, c)]))
      | Blocked => Blocked
      | Undefined => Undefined
      | IllFormed => IllFormed
      end
  end.

(* [m = ...] on a Mutex: std::shared_mutex declares its assignment deleted
   and has none from a pointer *)
Definition assign_mutex (m : addr) (rhs : addr) : M unit := λ _, IllFormed.

(* a member function defined outside its class with a type that no
   declaration in the class has: the definition is rejected by the compiler
   and the class has no such member to call *)
Definition no_matching_declaration : M unit := λ _, IllFormed.

(* a Mutex object begins to live at [m] *)
Definition construct_mutex (m : addr) : M unit := λ s,
  Done (tt, mkState (<[m := Mutex.unlocked]> (mutexes s)) (objects s) (log s)).

(* an object of type T begins to live at [a] with value [v] *)
Definition construct_at (a : addr) (v : T) : M unit := λ s,
  Done (tt, mkState (mutexes s) (<[a := v]> (objects s)) (log s)).

(* the object at [a] ends its life *)
Definition destroy_at (a : addr) : M unit := λ s,
  match objects s !! a with
  | Some _ => Done (tt, mkState (mutexes s) (delete a (objects s)) (log s))
  | None => Undefined
  end.

(* reading and assigning the object at [a] *)
Definition load (a : addr) : M T := λ s,
  match objects s !! a with
  | Some v => Done (v, s)
  | None => Undefined
  end.

Definition store (a : addr) (v : T) : M unit := λ s,
  match objects s !! a with
  | Some _ => Done (tt, mkState (mutexes s) (<[a := v]> (objects s)) (log s))
  | None => Undefined
  end.

(* std::swap on two pointer members *)
Definition swap (p q : option addr) : option addr * option addr := (q, p).

End Store.
Arguments State T : clear implicits.
Arguments M T A : clear implicits.

#[global] Instance M_ret {T} : MRet (M T) := @ret T.
#[global] Instance M_bind {T} : MBind (M T) := λ A B k c, bind c k.

(** ** ConstPtr<T>: the read guard *)
Module ConstPtr.
Section ConstPtr.
Context {T : Type}.

Record t : Type := Build {
  obj_ : option addr;      (* const T* obj_ = nullptr *)
  mutex_ : addr;           (* Mutex& mutex_ *)
}.

(* ConstPtr(const T* obj, Mutex& mutex) *)
Definition ctor (obj : option addr) (mutex : addr) : M T t :=
  let this := {| obj_ := obj; mutex_ := mutex |} in
  call_mutex (mutex_ this) Mutex.lock_shared;;
  mret this.

(* ConstPtr(ConstPtr&& other): the new guard and [other] afterwards *)
Definition move_ctor (other : t) : t * t :=
  ({| obj_ := obj_ other; mutex_ := mutex_ other |}, other).

(* ConstPtr& operator=(ConstPtr&& other): [this] and [other] afterwards *)
Definition move_assign (this other : t) : M T (t * t) :=
  assign_mutex (mutex_ this) (mutex_ other);;
  let '(o1, o2) := swap (obj_ this) (obj_ other) in
  mret ({| obj_ := o1; mutex_ := mutex_ this |},
        {| obj_ := o2; mutex_ := mutex_ other |}).

(* ~ConstPtr() *)
Definition dtor (this : t) : M T unit :=
  call_mutex (mutex_ this) Mutex.unlock_shared.

(* operator bool() const *)
Definition operator_bool (this : t) : bool :=
  match obj_ this with
  | Some _ => true
  | None => false
  end.

(* Mutex& mutex() *)
Definition mutex (this : t) : addr := mutex_ this.

(* const T& operator*() const: dereferencing a null pointer is undefined *)
Definition operator_star (this : t) : M T addr :=
  match obj_ this with
  | Some a => mret a
  | None => λ _, Undefined
  end.

(* const T* operator->() const *)
Definition operator_arrow (this : t) : option addr := obj_ this.

End ConstPtr.
End ConstPtr.

(** ** MutablePtr<T>: the write guard *)
Module MutablePtr.
Section MutablePtr.
Context {T : Type}.

Record t : Type := Build {
  obj_ : option addr;      (* T* obj_ = nullptr *)
  mutex_ : addr;           (* Mutex& mutex_ *)
}.

(* MutablePtr(T* obj, Mutex& mutex) *)
Definition ctor (obj : option addr) (mutex : addr) : M T t :=
  let this := {| obj_ := obj; mutex_ := mutex |} in
  call_mutex (mutex_ this) Mutex.lock;;
  mret this.

(* MutablePtr(MutablePtr&& other): obj_ starts as nullptr (its default
   member initializer) and is swapped with other.obj_ *)
Definition move_ctor (other : t) : t * t :=
  let this := {| obj_ := None; mutex_ := mutex_ other |} in
  let '(o1, o2) := swap (obj_ this) (obj_ other) in
  ({| obj_ := o1; mutex_ := mutex_ this |},
   {| obj_ := o2; mutex_ := mutex_ other |}).

(* MutablePtr& operator=(MutablePtr&& other) *)
Definition move_assign (this other : t) : M T (t * t) :=
  assign_mutex (mutex_ this) (mutex_ other);;
  let '(o1, o2) := swap (obj_ this) (obj_ other) in
  mret ({| obj_ := o1; mutex_ := mutex_ this |},
        {| obj_ := o2; mutex_ := mutex_ other |}).

(* ~MutablePtr() *)
Definition dtor (this : t) : M T unit :=
  call_mutex (mutex_ this) Mutex.unlock.

(* operator bool() const *)
Definition operator_bool (this : t) : bool :=
  match obj_ this with
  | Some _ => true
  | None => false
  end.

(* Mutex& mutex() *)
Definition mutex (this : t) : addr := mutex_ this.

(* T& operator*() *)
Definition operator_star (this : t) : M T addr :=
  match obj_ this with
  | Some a => mret a
  | None => λ _, Undefined
  end.

(* [T* MutablePtr<T>::operator->() { return obj_; }]: the class declares
   [T& operator->()], so this definition matches no declaration *)
Definition operator_arrow (this : t) : M T (option addr) :=
  no_matching_declaration;;
  mret (obj_ this).

End MutablePtr.
End MutablePtr.

(** ** Protected<T>: the container *)
Module Protected.
Section Protected.
Context {T : Type} `{Value T}.

(* where the two members of a container live *)
Record t : Type := Build {
  mutex_ : addr;           (* mutable Mutex mutex_ *)
  value_ : addr;           (* T value_ = T() *)
}.

(* Protected() = default *)
Definition ctor_default (this : t) : M T unit :=
  construct_mutex (mutex_ this);;
  construct_at (value_ this) value_init.

(* Protected(const T& value) : value_(value) *)
Definition ctor_copy (this : t) (value : addr) : M T unit :=
  construct_mutex (mutex_ this);;
  v ← load value;
  construct_at (value_ this) v.

(* Protected(T&& value) : value_(std::move(value)) *)
Definition ctor_move (this : t) (value : addr) : M T unit :=
  construct_mutex (mutex_ this);;
  v ← load value;
  construct_at (value_ this) v;;
  store value (moved_from v).

(* void set(const T& value): unique_lock locks, value_ = value, unique_lock unlocks *)
Definition set (this : t) (value : addr) : M T unit :=
  call_mutex (mutex_ this) Mutex.lock;;
  v ← load value;
  store (value_ this) v;;
  call_mutex (mutex_ this) Mutex.unlock.

(* void set(T&& value): the body names [value], an lvalue, so value_ is copy-assigned *)
Definition set_rvalue (this : t) (value : addr) : M T unit :=
  call_mutex (mutex_ this) Mutex.lock;;
  v ← load value;
  store (value_ this) v;;
  call_mutex (mutex_ this) Mutex.unlock.

(* T get() const: shared_lock locks, the result is copied, shared_lock unlocks *)
Definition get (this : t) : M T T :=
  call_mutex (mutex_ this) Mutex.lock_shared;;
  v ← load (value_ this);
  call_mutex (mutex_ this) Mutex.unlock_shared;;
  mret v.

(* Protected& operator=(Protected&& other) *)
Definition move_assign (this other : t) : M T unit :=
  assign_mutex (mutex_ this) (mutex_ other);;
  v ← load (value_ other);
  store (value_ this) v;;
  store (value_ other) (moved_from v).

(* ConstPtr<T> getConstPtr() const *)
Definition getConstPtr (this : t) : M T ConstPtr.t :=
  ConstPtr.ctor (Some (value_ this)) (mutex_ this).

(* MutablePtr<T> getMutablePtr() *)
Definition getMutablePtr (this : t) : M T MutablePtr.t :=
  MutablePtr.ctor (Some (value_ this)) (mutex_ this).

(* the lock calls that one completed set() and one completed get() make *)
Definition lock_unlock (this : t) : list (addr * Mutex.call) :=
  [(mutex_ this, Mutex.lock); (mutex_ this, Mutex.unlock)].

Definition shared_lock_unlock (this : t) : list (addr * Mutex.call) :=
  [(mutex_ this, Mutex.lock_shared); (mutex_ this, Mutex.unlock_shared)].

(* a caller's [T c = p.get();]: the copy becomes the caller's object at [c] *)
Definition copy_out (this : t) (c : addr) : M T T :=
  v ← get this;
  construct_at c v;;
  mret v.

(* a caller's [*p.getMutablePtr() = w;] inside a scope of its own *)
Definition assign_through_guard (this : t) (w : T) : M T unit :=
  val ← getMutablePtr this;
  r ← MutablePtr.operator_star val;
  store r w;;
  MutablePtr.dtor val.

End Protected.
End Protected.

(** ** Scopes

  A guard is an automatic object: it is destroyed when control leaves its
  scope, however it leaves.  The body of the scope reports how it ended. *)
Inductive exit (A E : Type) : Type :=
| fell_through (a : A)     (* control reached the end of the block *)
| returned (a : A)         (* a return statement inside the block *)
| threw (e : E).           (* an exception propagates out of the block *)
Arguments fell_through {A E} a.
Arguments returned {A E} a.
Arguments threw {A E} e.

Section Scope.
Context {T A E : Type}.

(* { auto val = p.getConstPtr(); body }  *)
Definition read_scope (p : Protected.t) (body : ConstPtr.t → M T (exit A E))
  : M T (exit A E) :=
  val ← Protected.getConstPtr p;
  e ← body val;
  ConstPtr.dtor val;;
  mret e.

(* { auto val = p.getMutablePtr(); body }  *)
Definition write_scope (p : Protected.t) (body : MutablePtr.t → M T (exit A E))
  : M T (exit A E) :=
  val ← Protected.getMutablePtr p;
  e ← body val;
  MutablePtr.dtor val;;
  mret e.

End Scope.

(** ** example.cpp *)
Module Example.

(* struct Point { double x = 0; double y = 0; }; *)
Record Point : Type := Build { x : float; y : float }.

#[global] Instance Point_value : Value Point := {|
  value_init := {| x := 0; y := 0 |};
  moved_from := λ p, p;                 (* moving two doubles copies them *)
|}.

(* obj->x = d for a pointer obj *)
Definition assign_x (obj : option addr) (d : float) : M Point unit :=
  match obj with
  | Some a => p ← load a; store a {| x := d; y := y p |}
  | None => λ _, Undefined
  end.

Definition result : Protected.t := {| Protected.mutex_ := 1%positive; Protected.value_ := 2%positive |}.
Definition temporary : addr := 3%positive.

(* int main(): the result is what was written to std::cout *)
Definition main : M Point (list Point) :=
  construct_at temporary {| x := 42; y := 69 |};;
  Protected.ctor_move result temporary;;
  destroy_at temporary;;
  by_copy ← Protected.get result;
  val ← Protected.getConstPtr result;
  by_const_ref ←
    (if ConstPtr.operator_bool val
     then r ← ConstPtr.operator_star val; p ← load r; mret [p]
     else mret []);
  ConstPtr.dtor val;;
  val ← Protected.getMutablePtr result;
  by_ref ←
    (if MutablePtr.operator_bool val
     then obj ← MutablePtr.operator_arrow val; assign_x obj 68;;
          r ← MutablePtr.operator_star val; p ← load r; mret [p]
     else mret []);
  MutablePtr.dtor val;;
  mret (by_copy :: by_const_ref ++ by_ref).

(* the container of main, constructed, with no guard in scope yet *)
Definition constructed : State Point :=
  match (construct_at temporary {| x := 42; y := 69 |};;
         Protected.ctor_move result temporary;;
         destroy_at temporary) empty_store with
  | Done (_, s) => s
  | _ => empty_store
  end.

(* a default-constructed container beside an object holding {42, 69} *)
Definition defaulted : State Point :=
  match (construct_at temporary {| x := 42; y := 69 |};;
         Protected.ctor_default result) empty_store with
  | Done (_, s) => s
  | _ => empty_store
  end.

(* bodies of guard scopes: one returns what it reads, one throws after it
   assigned 68 to x of the object that operator* gives *)
Definition reading_body (val : ConstPtr.t) : M Point (exit Point unit) :=
  r ← ConstPtr.operator_star val;
  p ← load r;
  mret (returned p).

Definition throwing_body (val : MutablePtr.t) : M Point (exit Point unit) :=
  r ← MutablePtr.operator_star val;
  assign_x (Some r) 68;;
  mret (threw tt).

End Example.

(** ** Guards of several threads on one container

  The threads that use a container [p] own guard objects.  One step is
  one completed guard operation of some thread: a call of a factory, a
  move construction from a guard, or the destruction of a guard.  A call
  that has to wait is not a step.  Each guard object carries ghost
  history: whether it has been the source of a move, and whether it was
  move-constructed from a guard that evaluated to false.  The move
  assignments of the guards are not steps: they have no instance (see
  [assign_mutex]). *)
Module Guards.

Inductive guard : Type :=
| Reader (g : ConstPtr.t)
| Writer (g : MutablePtr.t).

Record slot : Type := Slot {
  held : guard;
  moved : bool;              (* ghost: a move has taken from this guard *)
  from_null : bool;          (* ghost: move-constructed from a null guard *)
}.

Definition evaluates (g : guard) : bool :=
  match g with
  | Reader r => ConstPtr.operator_bool r
  | Writer w => MutablePtr.operator_bool w
  end.

Definition guard_obj (g : guard) : option addr :=
  match g with
  | Reader r => ConstPtr.obj_ r
  | Writer w => MutablePtr.obj_ w
  end.

Definition guard_mutex (g : guard) : addr :=
  match g with
  | Reader r => ConstPtr.mutex_ r
  | Writer w => MutablePtr.mutex_ w
  end.

Definition is_reader (sl : slot) : bool :=
  match held sl with Reader _ => true | Writer _ => false end.

Definition is_writer (sl : slot) : bool :=
  match held sl with Reader _ => false | Writer _ => true end.

(* a guard in scope that has not been moved from *)
Definition live (sl : slot) : bool := negb (moved sl).

Inductive op : Type :=
| GetConstPtr            (* auto g = p.getConstPtr() *)
| GetMutablePtr          (* auto g = p.getMutablePtr() *)
| Move (i : nat)         (* a new guard is move-constructed from guard i *)
| Destroy (i : nat).     (* guard i goes out of scope *)

Section Guards.
Context {T : Type}.
Variable p : Protected.t.

Record System : Type := Sys {
  memory : State T;
  guards : list slot;        (* the guard objects in scope, oldest first *)
}.

Definition fresh (g : guard) : slot :=
  {| held := g; moved := false; from_null := false |}.

Definition move_guard (g : guard) : guard * guard :=
  match g with
  | Reader r => let '(new, other) := ConstPtr.move_ctor r in (Reader new, Reader other)
  | Writer w => let '(new, other) := MutablePtr.move_ctor w in (Writer new, Writer other)
  end.

Definition destroy_guard (g : guard) : M T unit :=
  match g with
  | Reader r => ConstPtr.dtor r
  | Writer w => MutablePtr.dtor w
  end.

Definition exec (o : op) (sys : System) : outcome System :=
  match o with
  | GetConstPtr =>
      match Protected.getConstPtr p (memory sys) with
      | Done (g, s) => Done (Sys s (guards sys ++ [fresh (Reader g)]))
      | Blocked => Blocked | Undefined => Undefined | IllFormed => IllFormed
      end
  | GetMutablePtr =>
      match Protected.getMutablePtr p (memory sys) with
      | Done (g, s) => Done (Sys s (guards sys ++ [fresh (Writer g)]))
      | Blocked => Blocked | Undefined => Undefined | IllFormed => IllFormed
      end
  | Move i =>
      match guards sys !! i with
      | Some sl =>
          let '(new, other) := move_guard (held sl) in
          Done (Sys (memory sys)
                    (<[i := {| held := other; moved := true; from_null := from_null sl |}]>
                       (guards sys)
                     ++ [{| held := new; moved := false;
                            from_null := negb (evaluates (held sl)) |}]))
      | None => Undefined
      end
  | Destroy i =>
      match guards sys !! i with
      | Some sl =>
          match destroy_guard (held sl) (memory sys) with
          | Done (_, s) => Done (Sys s (delete i (guards sys)))
          | Blocked => Blocked | Undefined => Undefined | IllFormed => IllFormed
          end
      | None => Undefined
      end
  end.

(* an interleaving: the operations of all threads in the order they complete *)
Fixpoint run (ops : list op) (sys : System) : outcome System :=
  match ops with
  | [] => Done sys
  | o :: ops' =>
      match exec o sys with
      | Done sys' => run ops' sys'
      | Blocked => Blocked | Undefined => Undefined | IllFormed => IllFormed
      end
  end.

(* the container is alive, nobody holds its lock, and no guard exists *)
Definition initial (sys : System) : Prop :=
  mutexes (memory sys) !! Protected.mutex_ p = Some Mutex.unlocked
  ∧ is_Some (objects (memory sys) !! Protected.value_ p)
  ∧ guards sys = [].

Definition move_free (ops : list op) : bool :=
  forallb (λ o, match o with Move _ => false | _ => true end) ops.

Fixpoint count (f : slot → bool) (l : list slot) : nat :=
  match l with
  | [] => 0
  | sl :: l' => (if f sl then 1 else 0) + count f l'
  end.

(* the state of the lock agrees with the guards in scope *)
Definition consistent (sys : System) : Prop :=
  ∃ st, mutexes (memory sys) !! Protected.mutex_ p = Some st
    ∧ Forall (λ sl, moved sl = false ∧ guard_mutex (held sl) = Protected.mutex_ p) (guards sys)
    ∧ Mutex.readers st = count is_reader (guards sys)
    ∧ (if Mutex.writer st
       then count is_writer (guards sys) = 1 ∧ Mutex.readers st = 0
       else count is_writer (guards sys) = 0).

(* what a guard in scope can look like: bound to the payload, or null with
   the history that explains it *)
Definition well_formed (sl : slot) : Prop :=
  guard_mutex (held sl) = Protected.mutex_ p
  ∧ (guard_obj (held sl) = Some (Protected.value_ p)
     ∨ (guard_obj (held sl) = None ∧ (moved sl = true ∨ from_null sl = true))).

Definition live_readers (sys : System) : list slot :=
  filter (λ sl, live sl && is_reader sl) (guards sys).

Definition live_writers (sys : System) : list slot :=
  filter (λ sl, live sl && is_writer sl) (guards sys).

End Guards.
End Guards.

(* the threads of the demonstration container before any guard exists *)
Definition start : Guards.System (T := Example.Point) := Guards.Sys Example.constructed [].

(** ** Callers of the container *)

Section Callers.
Context {T : Type}.

(* p.set(a1); p.set(a2); ...: calls of set, one completed after the other *)
Fixpoint set_each (p : Protected.t) (args : list addr) : M T unit :=
  match args with
  | [] => mret tt
  | a :: args' => Protected.set p a;; set_each p args'
  end.

(* { auto val = p.getConstPtr(); T v = *val; } and v afterwards *)
Definition read_through_guard (p : Protected.t) : M T T :=
  val ← Protected.getConstPtr p;
  r ← ConstPtr.operator_star val;
  v ← load r;
  ConstPtr.dtor val;;
  mret v.

(* a default-constructed container beside two objects, {1, 2} and {42, 69} *)
Definition two_arguments : State Example.Point :=
  match (construct_at 3%positive (Example.Build 1 2);;
         construct_at 4%positive (Example.Build 42 69);;
         Protected.ctor_default Example.result) empty_store with
  | Done (_, s) => s
  | _ => empty_store
  end.

(* every holder of the lock has a guard object in scope that will release it *)
Definition covered (p : Protected.t) (sys : Guards.System (T := T)) : Prop :=
  ∃ st, mutexes (Guards.memory sys) !! Protected.mutex_ p = Some st
    ∧ Forall (λ sl, Guards.guard_mutex (Guards.held sl) = Protected.mutex_ p)
             (Guards.guards sys)
    ∧ Mutex.readers st ≤ Guards.count Guards.is_reader (Guards.guards sys)
    ∧ (Mutex.writer st = true → 1 ≤ Guards.count Guards.is_writer (Guards.guards sys)).

End Callers.

(** * Properties *)

Ltac monad_unfold :=
unfold mbind, M_bind, bind, mret, M_ret, ret in *.

Section StoreFacts.
Context {T : Type}.
Implicit Types (s : State T) (m : addr) (c : Mutex.call).

Lemma call_mutex_done s m c st st' :
  mutexes s !! m = Some st →
  Mutex.perform c st = Done st' →
  call_mutex m c s
  = Done (tt, mkState (<[m := st']> (mutexes s)) (objects s) (log s ++ [(m, c)])).
Proof. intros Hm Hc. unfold call_mutex. by rewrite Hm, Hc. Qed.

Lemma call_mutex_inv s m c s' :
  call_mutex m c s = Done (tt, s') →
  ∃ st st', mutexes s !! m = Some st ∧ Mutex.perform c st = Done st'
    ∧ s' = mkState (<[m := st']> (mutexes s)) (objects s) (log s ++ [(m, c)]).
Proof.
  unfold call_mutex. destruct (mutexes s !! m) as [st|]; [|done].
  destruct (Mutex.perform c st) as [st'| | |] eqn:Hc; [|done..].
  intros [= <-]. eauto.
Qed.

Lemma do_lock_inv st st' :
  Mutex.do_lock st = Done st' →
  st = Mutex.unlocked ∧ st' = {| Mutex.readers := 0; Mutex.writer := true |}.
Proof.
  unfold Mutex.do_lock, Mutex.is_free. destruct st as [n [|]]; simpl; [done|].
  destruct n; simpl; [|done]. by intros [= <-].
Qed.

Lemma load_done s a v : objects s !! a = Some v → load a s = Done (v, s).
Proof. intros Ha. unfold load. by rewrite Ha. Qed.

Lemma store_done s a v :
  is_Some (objects s !! a) →
  store a v s = Done (tt, mkState (mutexes s) (<[a := v]> (objects s)) (log s)).
Proof. intros [w Ha]. unfold store. by rewrite Ha. Qed.

End StoreFacts.

Section ProtectedFacts.
Context {T : Type} `{Value T}.
Implicit Types (s : State T) (this : Protected.t).

(* what set computes, case by case *)
Lemma set_unfold this value s :
  Protected.set this value s =
  match mutexes s !! Protected.mutex_ this with
  | None => Undefined
  | Some st =>
      if Mutex.is_free st then
        match objects s !! value, objects s !! Protected.value_ this with
        | Some v, Some _ =>
            Done (tt, mkState (mutexes s) (<[Protected.value_ this := v]> (objects s))
                              (log s ++ Protected.lock_unlock this))
        | _, _ => Undefined
        end
      else Blocked
  end.
Proof.
  unfold Protected.set. monad_unfold. unfold call_mutex at 1.
  destruct (mutexes s !! Protected.mutex_ this) as [st|] eqn:Hm; [|done].
  simpl. unfold Mutex.do_lock.
  destruct (Mutex.is_free st) eqn:Hfree; [|done].
  unfold load, store, call_mutex; simpl.
  destruct (objects s !! value) as [v|]; [|done].
  simpl. destruct (objects s !! Protected.value_ this) as [w|]; [|done].
  simpl. rewrite lookup_insert_eq. simpl.
  rewrite insert_insert_eq, <- assoc_L by apply _.
  do 3 f_equal. apply insert_id. rewrite Hm. f_equal.
  destruct st as [n [|]]; [done|]. destruct n; done.
Qed.

Lemma set_rvalue_eq this value s :
  Protected.set_rvalue this value s = Protected.set this value s.
Proof. reflexivity. Qed.

(* what get computes, case by case *)
Lemma get_unfold this s :
  Protected.get this s =
  match mutexes s !! Protected.mutex_ this with
  | None => Undefined
  | Some st =>
      if Mutex.writer st then Blocked
      else match objects s !! Protected.value_ this with
           | Some v =>
               Done (v, mkState (mutexes s) (objects s) (log s ++ Protected.shared_lock_unlock this))
           | None => Undefined
           end
  end.
Proof.
  unfold Protected.get. monad_unfold. unfold call_mutex at 1.
  destruct (mutexes s !! Protected.mutex_ this) as [st|] eqn:Hm; [|done].
  simpl. unfold Mutex.do_lock_shared.
  destruct (Mutex.writer st) eqn:Hw; [done|].
  unfold load, call_mutex; simpl.
  destruct (objects s !! Protected.value_ this) as [v|]; [|done].
  simpl. rewrite lookup_insert_eq. simpl.
  rewrite insert_insert_eq, <- assoc_L by apply _.
  do 3 f_equal. apply insert_id. rewrite Hm. f_equal.
  destruct st as [n w]. simpl in Hw. by subst.
Qed.

End ProtectedFacts.

Section Accessors.
Context {T : Type} `{Value T}.
Implicit Types (s : State T) (this : Protected.t) (v : T).

(** C9: a default-constructed container holds a value-initialized payload:
    [get()] on it, before any [set], returns [T()]. *)
Theorem get_of_default_constructed this s :
  ∃ s' s'', Protected.ctor_default this s = Done (tt, s')
    ∧ mutexes s' !! Protected.mutex_ this = Some Mutex.unlocked
    ∧ Protected.get this s' = Done (value_init, s'').
Proof.
  eexists _, _. split; [reflexivity|]. split.
  - simpl. apply lookup_insert_eq.
  - rewrite get_unfold. simpl. by rewrite !lookup_insert_eq.
Qed.

(** C6: [set(v)] (either overload) replaces the payload with [v] and cannot
    fail: with the lock free it completes, with the lock held it waits, and
    whenever it has completed the next [get()] returns [v]. *)
Theorem set_then_get this value v st s :
  objects s !! value = Some v →
  is_Some (objects s !! Protected.value_ this) →
  mutexes s !! Protected.mutex_ this = Some st →
  Protected.set_rvalue this value s = Protected.set this value s
  ∧ (Mutex.is_free st = true → ∃ s', Protected.set this value s = Done (tt, s'))
  ∧ (Mutex.is_free st = false → Protected.set this value s = Blocked)
  ∧ (∀ s', Protected.set this value s = Done (tt, s') →
       objects s' !! Protected.value_ this = Some v
       ∧ ∃ s'', Protected.get this s' = Done (v, s'')).
Proof.
  intros Hv [w Hw] Hm. split; [reflexivity|].
  rewrite set_unfold, Hm, Hv, Hw.
  destruct (Mutex.is_free st) eqn:Hfree.
  - split; [eauto|]. split; [done|].
    intros s' [= <-]. simpl. rewrite lookup_insert_eq. split; [done|].
    rewrite get_unfold. simpl. rewrite Hm, lookup_insert_eq.
    destruct st as [n [|]]; [done|]. simpl. eauto.
  - split; [done|]. split; [done|]. intros s' [=].
Qed.

(** C10: [set(T&&)] copy-assigns from its argument: the caller's object
    holds the same value after the call, and so does the payload. *)
Theorem set_rvalue_leaves_argument this value v s :
  objects s !! value = Some v →
  is_Some (objects s !! Protected.value_ this) →
  mutexes s !! Protected.mutex_ this = Some Mutex.unlocked →
  ∃ s', Protected.set_rvalue this value s = Done (tt, s')
    ∧ objects s' !! value = Some v
    ∧ objects s' !! Protected.value_ this = Some v.
Proof.
  intros Hv [w Hw] Hm.
  rewrite set_rvalue_eq, set_unfold, Hm, Hv, Hw. simpl.
  eexists. split; [reflexivity|]. simpl.
  rewrite lookup_insert, lookup_insert_eq. by case_decide.
Qed.

(* the constructor from T&&, in contrast, moves from its argument *)
Lemma ctor_move_takes_argument this value v s :
  objects s !! value = Some v →
  value ≠ Protected.value_ this →
  ∃ s', Protected.ctor_move this value s = Done (tt, s')
    ∧ objects s' !! value = Some (moved_from v)
    ∧ objects s' !! Protected.value_ this = Some v.
Proof.
  intros Hv Hne. unfold Protected.ctor_move. monad_unfold. simpl.
  unfold load, store. simpl. rewrite Hv. simpl.
  rewrite lookup_insert_ne, Hv by done.
  eexists. split; [reflexivity|]. simpl.
  by rewrite lookup_insert_eq, lookup_insert_ne, lookup_insert_eq.
Qed.

(* what a write through a fresh write guard computes when the lock is free *)
Lemma assign_through_guard_free this w s :
  mutexes s !! Protected.mutex_ this = Some Mutex.unlocked →
  is_Some (objects s !! Protected.value_ this) →
  Protected.assign_through_guard this w s
  = Done (tt, mkState (mutexes s) (<[Protected.value_ this := w]> (objects s))
                      (log s ++ Protected.lock_unlock this)).
Proof.
  intros Hm [v Hv]. unfold Protected.assign_through_guard, Protected.getMutablePtr.
  unfold MutablePtr.ctor, MutablePtr.dtor. monad_unfold. simpl.
  unfold call_mutex at 1. rewrite Hm. simpl.
  unfold store. simpl. rewrite Hv. simpl.
  unfold call_mutex. simpl. rewrite lookup_insert_eq. simpl.
  rewrite insert_insert_eq, <- assoc_L by apply _.
  do 3 f_equal. by apply insert_id.
Qed.

(** C5: the copy returned by [get()] is the caller's own object: a later
    [set] (either overload) or a write through a write guard changes the
    payload and leaves the copy as it was. *)
Theorem get_copy_is_independent this c v0 s :
  c ≠ Protected.value_ this →
  mutexes s !! Protected.mutex_ this = Some Mutex.unlocked →
  objects s !! Protected.value_ this = Some v0 →
  ∃ s1, Protected.copy_out this c s = Done (v0, s1)
    ∧ objects s1 !! c = Some v0
    ∧ (∀ value w, objects s1 !! value = Some w →
         ∃ s2, Protected.set this value s1 = Done (tt, s2)
           ∧ Protected.set_rvalue this value s1 = Done (tt, s2)
           ∧ objects s2 !! Protected.value_ this = Some w
           ∧ objects s2 !! c = Some v0)
    ∧ (∀ w, ∃ s2, Protected.assign_through_guard this w s1 = Done (tt, s2)
           ∧ objects s2 !! Protected.value_ this = Some w
           ∧ objects s2 !! c = Some v0).
Proof.
  intros Hc Hm Hv. unfold Protected.copy_out. monad_unfold.
  rewrite get_unfold, Hm, Hv. simpl.
  eexists. split; [reflexivity|]. simpl.
  split; [apply lookup_insert_eq|]. split.
  - intros value w Hw. rewrite set_unfold, set_rvalue_eq, set_unfold. simpl.
    rewrite Hm, Hw, lookup_insert_ne, Hv by done. simpl.
    eexists. split; [reflexivity|]. split; [reflexivity|]. simpl.
    by rewrite lookup_insert_eq, lookup_insert_ne, lookup_insert_eq.
  - intros w. rewrite assign_through_guard_free; simpl.
    + eexists. split; [reflexivity|]. simpl.
      by rewrite lookup_insert_eq, lookup_insert_ne, lookup_insert_eq.
    + done.
    + rewrite lookup_insert_ne by done. eauto.
Qed.

End Accessors.

Section GuardFacts.
Context {T : Type}.
Implicit Types (s : State T) (p : Protected.t).

Lemma getConstPtr_unfold p s :
  Protected.getConstPtr p s =
  match mutexes s !! Protected.mutex_ p with
  | None => Undefined
  | Some st =>
      if Mutex.writer st then Blocked
      else Done ({| ConstPtr.obj_ := Some (Protected.value_ p);
                    ConstPtr.mutex_ := Protected.mutex_ p |},
                 mkState (<[Protected.mutex_ p :=
                              {| Mutex.readers := S (Mutex.readers st); Mutex.writer := false |}]>
                            (mutexes s))
                         (objects s) (log s ++ [(Protected.mutex_ p, Mutex.lock_shared)]))
  end.
Proof.
  unfold Protected.getConstPtr, ConstPtr.ctor. monad_unfold. unfold call_mutex. simpl.
  destruct (mutexes s !! Protected.mutex_ p) as [st|]; [|done].
  simpl. unfold Mutex.do_lock_shared. by destruct (Mutex.writer st).
Qed.

Lemma getMutablePtr_unfold p s :
  Protected.getMutablePtr p s =
  match mutexes s !! Protected.mutex_ p with
  | None => Undefined
  | Some st =>
      if Mutex.is_free st then
        Done ({| MutablePtr.obj_ := Some (Protected.value_ p);
                 MutablePtr.mutex_ := Protected.mutex_ p |},
              mkState (<[Protected.mutex_ p := {| Mutex.readers := 0; Mutex.writer := true |}]>
                         (mutexes s))
                      (objects s) (log s ++ [(Protected.mutex_ p, Mutex.lock)]))
      else Blocked
  end.
Proof.
  unfold Protected.getMutablePtr, MutablePtr.ctor. monad_unfold. unfold call_mutex. simpl.
  destruct (mutexes s !! Protected.mutex_ p) as [st|]; [|done].
  simpl. unfold Mutex.do_lock. by destruct (Mutex.is_free st).
Qed.

(* ~ConstPtr() while some shared hold exists *)
Lemma ConstPtr_dtor_held (g : ConstPtr.t) s n w :
  mutexes s !! ConstPtr.mutex_ g = Some {| Mutex.readers := S n; Mutex.writer := w |} →
  ConstPtr.dtor g s
  = Done (tt, mkState (<[ConstPtr.mutex_ g := {| Mutex.readers := n; Mutex.writer := w |}]>
                         (mutexes s))
                      (objects s) (log s ++ [(ConstPtr.mutex_ g, Mutex.unlock_shared)])).
Proof. intros Hm. unfold ConstPtr.dtor, call_mutex. by rewrite Hm. Qed.

(* ~MutablePtr() while the lock is held exclusively *)
Lemma MutablePtr_dtor_held (g : MutablePtr.t) s n :
  mutexes s !! MutablePtr.mutex_ g = Some {| Mutex.readers := n; Mutex.writer := true |} →
  MutablePtr.dtor g s
  = Done (tt, mkState (<[MutablePtr.mutex_ g := {| Mutex.readers := n; Mutex.writer := false |}]>
                         (mutexes s))
                      (objects s) (log s ++ [(MutablePtr.mutex_ g, Mutex.unlock)])).
Proof. intros Hm. unfold MutablePtr.dtor, call_mutex. by rewrite Hm. Qed.

(** C4: a guard that was not moved from releases, when it is destroyed, the
    mode it acquired and nothing else: the read guard's destructor makes one
    [unlock_shared] call and the write guard's destructor one [unlock] call
    on the guard's lock; and the scope of a guard obtained from the
    container ends with that one call whichever way ([e]) its body was
    left. *)
Theorem scope_exit_releases_once {A E : Type} p s :
  (∀ (g : ConstPtr.t) n w,
     mutexes s !! ConstPtr.mutex_ g = Some {| Mutex.readers := S n; Mutex.writer := w |} →
     ∃ s', ConstPtr.dtor g s = Done (tt, s')
       ∧ log s' = log s ++ [(ConstPtr.mutex_ g, Mutex.unlock_shared)]
       ∧ mutexes s' !! ConstPtr.mutex_ g = Some {| Mutex.readers := n; Mutex.writer := w |})
  ∧ (∀ (g : MutablePtr.t) n,
     mutexes s !! MutablePtr.mutex_ g = Some {| Mutex.readers := n; Mutex.writer := true |} →
     ∃ s', MutablePtr.dtor g s = Done (tt, s')
       ∧ log s' = log s ++ [(MutablePtr.mutex_ g, Mutex.unlock)]
       ∧ mutexes s' !! MutablePtr.mutex_ g = Some {| Mutex.readers := n; Mutex.writer := false |})
  ∧ (∀ (body : ConstPtr.t → M T (exit A E)) g s1 e s2,
     Protected.getConstPtr p s = Done (g, s1) →
     body g s1 = Done (e, s2) →
     mutexes s2 !! Protected.mutex_ p = mutexes s1 !! Protected.mutex_ p →
     log s1 = log s ++ [(Protected.mutex_ p, Mutex.lock_shared)]
     ∧ ∃ s3, ConstPtr.dtor g s2 = Done (tt, s3)
         ∧ read_scope p body s = Done (e, s3)
         ∧ log s3 = log s2 ++ [(Protected.mutex_ p, Mutex.unlock_shared)]
         ∧ objects s3 = objects s2)
  ∧ (∀ (body : MutablePtr.t → M T (exit A E)) g s1 e s2,
     Protected.getMutablePtr p s = Done (g, s1) →
     body g s1 = Done (e, s2) →
     mutexes s2 !! Protected.mutex_ p = mutexes s1 !! Protected.mutex_ p →
     log s1 = log s ++ [(Protected.mutex_ p, Mutex.lock)]
     ∧ ∃ s3, MutablePtr.dtor g s2 = Done (tt, s3)
         ∧ write_scope p body s = Done (e, s3)
         ∧ log s3 = log s2 ++ [(Protected.mutex_ p, Mutex.unlock)]
         ∧ objects s3 = objects s2).
Proof.
  split; [|split; [|split]].
  1: { intros g n w Hm. rewrite (ConstPtr_dtor_held _ _ _ _ Hm).
       eexists. split; [reflexivity|]. simpl. split; [done|apply lookup_insert_eq]. }
  1: { intros g n Hm. rewrite (MutablePtr_dtor_held _ _ _ Hm).
       eexists. split; [reflexivity|]. simpl. split; [done|apply lookup_insert_eq]. }
  all: intros body g s1 e s2 Hget Hbody Hkept.
  - unfold read_scope. monad_unfold. rewrite Hget, Hbody.
    rewrite getConstPtr_unfold in Hget.
    destruct (mutexes s !! Protected.mutex_ p) as [st|]; [|done].
    destruct (Mutex.writer st); [done|]. injection Hget as <- <-.
    simpl in *. rewrite lookup_insert_eq in Hkept.
    split; [done|]. erewrite ConstPtr_dtor_held by exact Hkept.
    eexists. split; [reflexivity|]. by simpl.
  - unfold write_scope. monad_unfold. rewrite Hget, Hbody.
    rewrite getMutablePtr_unfold in Hget.
    destruct (mutexes s !! Protected.mutex_ p) as [st|]; [|done].
    destruct (Mutex.is_free st); [|done]. injection Hget as <- <-.
    simpl in *. rewrite lookup_insert_eq in Hkept.
    split; [done|]. erewrite MutablePtr_dtor_held by exact Hkept.
    eexists. split; [reflexivity|]. by simpl.
Qed.

End GuardFacts.

(** C2: what the code does for the sequential scenario.  Up to the write
    guard it goes as described: the container built from [{42, 69}] gives
    [{42, 69}] from [get()] and through a read guard, and a write guard is
    acquired.  Setting [x] is written [val->x = 68], and the write guard's
    [operator->] is defined with a type its class does not declare: the
    call cannot be compiled, for any guard, and [main] has no run. *)
Theorem sequential_scenario_ill_formed :
  Example.main empty_store = IllFormed
  ∧ (∃ s, Protected.get Example.result Example.constructed = Done (Example.Build 42 69, s))
  ∧ (∃ s, read_scope Example.result Example.reading_body Example.constructed
          = Done (returned (Example.Build 42 69), s))
  ∧ (∃ val s, Protected.getMutablePtr Example.result Example.constructed = Done (val, s)
       ∧ MutablePtr.operator_bool val = true)
  ∧ (∀ (val : MutablePtr.t) (s : State Example.Point),
       MutablePtr.operator_arrow val s = IllFormed).
Proof.
  split; [vm_compute; reflexivity|].
  split; [eexists; vm_compute; reflexivity|].
  split; [eexists; vm_compute; reflexivity|].
  split; [|reflexivity].
  eexists _, _. split; vm_compute; reflexivity.
Qed.


(** ** Moves of guards *)

Section Moves.
Context {T : Type}.

(* the read guard's move constructor leaves the pointer in its source *)
Lemma ConstPtr_move_ctor_source (g : ConstPtr.t) :
  (ConstPtr.move_ctor g).2 = g ∧ (ConstPtr.move_ctor g).1 = g.
Proof. by destruct g. Qed.

(* the write guard's move constructor nulls its source *)
Lemma MutablePtr_move_ctor_source (g : MutablePtr.t) :
  MutablePtr.operator_bool (MutablePtr.move_ctor g).2 = false
  ∧ (MutablePtr.move_ctor g).1 = g.
Proof. by destruct g. Qed.

(* neither destructor looks at the pointer: a guard that was moved from
   makes the same unlock call as the guard that received the move *)
Lemma dtor_after_move (s : State T) :
  (∀ g : ConstPtr.t,
     ConstPtr.dtor (ConstPtr.move_ctor g).2 s = ConstPtr.dtor (ConstPtr.move_ctor g).1 s)
  ∧ (∀ g : MutablePtr.t,
     MutablePtr.dtor (MutablePtr.move_ctor g).2 s = MutablePtr.dtor (MutablePtr.move_ctor g).1 s).
Proof. split; intros g; by destruct g. Qed.

(* the move assignments need an assignment of the lock, which it lacks *)
Lemma guard_move_assign_ill_formed (s : State T) :
  (∀ this other : ConstPtr.t, ConstPtr.move_assign this other s = IllFormed)
  ∧ (∀ this other : MutablePtr.t, MutablePtr.move_assign this other s = IllFormed).
Proof. split; reflexivity. Qed.

(** C8: what the code does for [a = std::move(b)] on containers: the first
    statement of the operator assigns one [std::shared_mutex] to another,
    which that type does not allow, so the operator has no instance and no
    value is transferred. *)
Theorem container_move_assign_ill_formed `{Value T} (a b : Protected.t) (s : State T) :
  Protected.move_assign a b s = IllFormed.
Proof. reflexivity. Qed.

End Moves.

Section Trace.
Import Guards.

(** C1: what the code does with a guard that was moved from.  The read
    guard still evaluates to true; and for both guards the destructor of the
    source releases again: after the destination released the one
    acquisition, the source's destructor unlocks a lock nobody holds, and
    with a second reader in scope it gives that reader's acquisition away. *)
Theorem moved_from_guard_releases_again :
  (∃ sys sl, run Example.result [GetConstPtr; Move 0] start = Done sys
     ∧ guards sys !! 0 = Some sl ∧ moved sl = true ∧ evaluates (held sl) = true)
  ∧ (∃ sys, run Example.result [GetConstPtr; Move 0; Destroy 1] start = Done sys
     ∧ mutexes (memory sys) !! Protected.mutex_ Example.result = Some Mutex.unlocked
     ∧ exec Example.result (Destroy 0) sys = Undefined)
  ∧ (∃ sys, run Example.result [GetMutablePtr; Move 0; Destroy 1] start = Done sys
     ∧ mutexes (memory sys) !! Protected.mutex_ Example.result = Some Mutex.unlocked
     ∧ exec Example.result (Destroy 0) sys = Undefined)
  ∧ (∃ sys, run Example.result [GetConstPtr; GetConstPtr; Move 0; Destroy 2; Destroy 0] start
            = Done sys
     ∧ length (live_readers sys) = 1
     ∧ mutexes (memory sys) !! Protected.mutex_ Example.result = Some Mutex.unlocked
     ∧ log (memory sys)
       = [(Protected.mutex_ Example.result, Mutex.lock_shared);
          (Protected.mutex_ Example.result, Mutex.lock_shared);
          (Protected.mutex_ Example.result, Mutex.unlock_shared);
          (Protected.mutex_ Example.result, Mutex.unlock_shared)]).
Proof.
  split; [|split; [|split]].
  - eexists _, _. split; [vm_compute; reflexivity|]. by vm_compute.
  - eexists. split; [vm_compute; reflexivity|]. by vm_compute.
  - eexists. split; [vm_compute; reflexivity|]. by vm_compute.
  - eexists. split; [vm_compute; reflexivity|]. by vm_compute.
Qed.

(** C3: what the code allows: a read guard that received a move stays in
    scope while the guard it was moved from is destroyed, which frees the
    lock; a write guard is then acquired beside the live read guard. *)
Theorem writer_acquired_beside_live_reader :
  ∃ sys, run Example.result [GetConstPtr; Move 0; Destroy 0; GetMutablePtr] start = Done sys
    ∧ length (live_readers sys) = 1
    ∧ length (live_writers sys) = 1
    ∧ Forall (λ sl, evaluates (held sl) = true) (guards sys).
Proof.
  eexists. split; [vm_compute; reflexivity|].
  split; [by vm_compute|]. split; [by vm_compute|].
  vm_compute. repeat constructor.
Qed.

End Trace.

(** ** Invariants of the guards in scope *)

Section Invariants.
Import Guards.
Context {T : Type}.
Variable p : Protected.t.
Implicit Types (sys : System (T := T)) (l : list slot) (sl : slot).

Lemma count_app f l1 l2 : count f (l1 ++ l2) = count f l1 + count f l2.
Proof. induction l1 as [|sl l1 IH]; simpl; [done|]. rewrite IH. lia. Qed.

Lemma count_delete f l i sl :
  l !! i = Some sl → count f l = (if f sl then 1 else 0) + count f (delete i l).
Proof.
  revert i. induction l as [|x l IH]; intros [|i] Hi; simplify_eq/=; [done|].
  rewrite (IH i Hi). lia.
Qed.

Lemma count_elem f l sl : sl ∈ l → f sl = true → 0 < count f l.
Proof.
  induction 1 as [x l|x y l _ IH]; intros Hf; simpl.
  - rewrite Hf. lia.
  - specialize (IH Hf). lia.
Qed.

Lemma count_none f g l : count f l = 0 → filter (λ sl, g sl && f sl) l = [].
Proof.
  induction l as [|x l IH]; simpl; [done|]. intros Hc.
  destruct (f x) eqn:Hf; [lia|].
  rewrite filter_cons_False; [apply IH; lia|].
  rewrite Hf, andb_false_r. by intros [].
Qed.

(* a step keeps every guard in scope well formed *)
Lemma exec_well_formed o sys sys' :
  exec p o sys = Done sys' →
  Forall (well_formed p) (guards sys) →
  Forall (well_formed p) (guards sys').
Proof.
  intros Hexec Hwf. destruct o as [| |i|i]; simpl in Hexec.
  - rewrite getConstPtr_unfold in Hexec.
    destruct (mutexes (memory sys) !! Protected.mutex_ p) as [st|]; [|done].
    destruct (Mutex.writer st); [done|]. injection Hexec as <-. simpl.
    apply Forall_app_2; [done|]. apply Forall_singleton. split; [done|by left].
  - rewrite getMutablePtr_unfold in Hexec.
    destruct (mutexes (memory sys) !! Protected.mutex_ p) as [st|]; [|done].
    destruct (Mutex.is_free st); [|done]. injection Hexec as <-. simpl.
    apply Forall_app_2; [done|]. apply Forall_singleton. split; [done|by left].
  - destruct (guards sys !! i) as [sl|] eqn:Hi; [|done].
    destruct (Forall_lookup_1 _ _ _ _ Hwf Hi) as [Hmx Hobj].
    destruct sl as [[[o m]|[o m]] mv fn]; simpl in *; injection Hexec as <-; simpl;
      (apply Forall_app_2; [apply Forall_insert; [done|]|apply Forall_singleton]);
      split; simpl; try done.
    + destruct Hobj as [->|[-> _]]; [by left|right; auto].
    + destruct Hobj as [->|[-> _]]; [by left|right; auto].
    + right; auto.
    + destruct Hobj as [->|[-> _]]; [by left|right; auto].
  - destruct (guards sys !! i) as [sl|]; [|done].
    destruct (destroy_guard (held sl) (memory sys)) as [[u s]| | |]; [|done..].
    injection Hexec as <-. simpl. by apply Forall_delete.
Qed.

Lemma run_well_formed ops sys sys' :
  run p ops sys = Done sys' →
  Forall (well_formed p) (guards sys) →
  Forall (well_formed p) (guards sys').
Proof.
  revert sys. induction ops as [|o ops IH]; intros sys Hrun Hwf; simpl in Hrun.
  - by injection Hrun as <-.
  - destruct (exec p o sys) as [sys1| | |] eqn:Hexec; [|done..].
    eapply IH; [done|]. by eapply exec_well_formed.
Qed.

(** C7, as the code has it: a guard evaluates to true exactly when it
    points at the payload; a guard returned by [getConstPtr] or
    [getMutablePtr] does; and a guard in scope that evaluates to false has
    been moved from, or was itself move-constructed from a guard that
    evaluated to false. *)
Theorem guard_boolean_state (sys0 : System (T := T)) ops sys :
  guards sys0 = [] →
  run p ops sys0 = Done sys →
  (∀ sl, sl ∈ guards sys →
     (evaluates (held sl) = true ↔ guard_obj (held sl) = Some (Protected.value_ p))
     ∧ (evaluates (held sl) = false → moved sl = true ∨ from_null sl = true))
  ∧ (∀ g s, Protected.getConstPtr p (memory sys) = Done (g, s) →
       ConstPtr.operator_bool g = true ∧ ConstPtr.obj_ g = Some (Protected.value_ p))
  ∧ (∀ g s, Protected.getMutablePtr p (memory sys) = Done (g, s) →
       MutablePtr.operator_bool g = true ∧ MutablePtr.obj_ g = Some (Protected.value_ p)).
Proof.
  intros Hnil Hrun. split; [|split].
  - assert (Forall (well_formed p) (guards sys)) as Hwf.
    { eapply run_well_formed; [done|]. rewrite Hnil. constructor. }
    intros sl Hsl. rewrite Forall_forall in Hwf.
    destruct (Hwf sl Hsl) as [_ Hobj].
    destruct sl as [[[o m]|[o m]] mv fn]; simpl in *;
      destruct Hobj as [->|[-> Hhist]]; simpl; split; try done;
      split; intros; simplify_eq.
  - intros g s. rewrite getConstPtr_unfold.
    destruct (mutexes (memory sys) !! Protected.mutex_ p) as [st|]; [|done].
    destruct (Mutex.writer st); [done|]. by intros [= <- _].
  - intros g s. rewrite getMutablePtr_unfold.
    destruct (mutexes (memory sys) !! Protected.mutex_ p) as [st|]; [|done].
    destruct (Mutex.is_free st); [|done]. by intros [= <- _].
Qed.

(* a factory step and a destruction keep the lock in agreement with the guards *)
Lemma exec_consistent o sys sys' :
  move_free [o] = true →
  exec p o sys = Done sys' →
  consistent p sys →
  consistent p sys'.
Proof.
  intros Hfree Hexec (st & Hm & Hall & Hr & Hw).
  destruct o as [| |i|i]; simpl in Hexec; [| |done|].
  - rewrite getConstPtr_unfold, Hm in Hexec.
    destruct (Mutex.writer st) eqn:Hwr; [done|]. injection Hexec as <-.
    eexists. simpl. split; [apply lookup_insert_eq|].
    split; [apply Forall_app_2; [done|by apply Forall_singleton]|].
    rewrite !count_app. simpl. split; lia.
  - rewrite getMutablePtr_unfold, Hm in Hexec.
    destruct (Mutex.is_free st) eqn:Hf; [|done]. injection Hexec as <-.
    destruct st as [n [|]]; [done|]. destruct n; [|done]. simpl in *.
    eexists. split; [apply lookup_insert_eq|].
    split; [apply Forall_app_2; [done|by apply Forall_singleton]|].
    simpl. rewrite !count_app. simpl. split; lia.
  - destruct (guards sys !! i) as [sl|] eqn:Hi; [|done].
    destruct (Forall_lookup_1 _ _ _ _ Hall Hi) as [_ Hmx].
    rewrite (count_delete is_reader _ _ _ Hi) in Hr.
    rewrite (count_delete is_writer _ _ _ Hi) in Hw.
    destruct sl as [[g|g] mv fn]; simpl in *.
    + unfold ConstPtr.dtor, call_mutex in Hexec. rewrite Hmx, Hm in Hexec. simpl in Hexec.
      unfold Mutex.do_unlock_shared in Hexec.
      destruct st as [[|n] w]; [done|]. simpl in *. injection Hexec as <-.
      destruct w; [lia|].
      eexists. simpl. split; [apply lookup_insert_eq|].
      split; [by apply Forall_delete|]. simpl. split; lia.
    + unfold MutablePtr.dtor, call_mutex in Hexec. rewrite Hmx, Hm in Hexec. simpl in Hexec.
      unfold Mutex.do_unlock in Hexec.
      destruct st as [n [|]]; [|done]. simpl in *. injection Hexec as <-.
      eexists. simpl. split; [apply lookup_insert_eq|].
      split; [by apply Forall_delete|]. simpl. split; lia.
Qed.

Lemma run_consistent ops sys sys' :
  move_free ops = true →
  run p ops sys = Done sys' →
  consistent p sys →
  consistent p sys'.
Proof.
  revert sys. induction ops as [|o ops IH]; intros sys Hfree Hrun Hcons; simpl in Hrun.
  - by injection Hrun as <-.
  - destruct (exec p o sys) as [sys1| | |] eqn:Hexec; [|done..].
    unfold move_free in Hfree. simpl in Hfree. apply andb_prop in Hfree as [Ho Hops].
    eapply IH; [done..|]. eapply exec_consistent; [|done..].
    unfold move_free. simpl. by rewrite Ho.
Qed.

Lemma initial_consistent sys : initial p sys → consistent p sys.
Proof.
  intros (Hm & _ & Hnil). exists Mutex.unlocked. rewrite Hnil. simpl.
  split; [done|]. split; [constructor|]. done.
Qed.

(* Without moves of guards the lock does exclude: in every interleaving of
   factory calls and destructions, while a read guard is live there is no
   live write guard and a call of getMutablePtr waits; while a write guard
   is live a call of either factory waits. *)
Lemma exclusion_without_moves sys0 ops sys :
  initial p sys0 →
  move_free ops = true →
  run p ops sys0 = Done sys →
  (live_readers sys ≠ [] →
     live_writers sys = [] ∧ exec p GetMutablePtr sys = Blocked)
  ∧ (live_writers sys ≠ [] →
     live_readers sys = []
     ∧ exec p GetMutablePtr sys = Blocked ∧ exec p GetConstPtr sys = Blocked).
Proof.
  intros Hinit Hfree Hrun.
  destruct (run_consistent _ _ _ Hfree Hrun (initial_consistent _ Hinit))
    as (st & Hm & Hall & Hr & Hw).
  assert (∀ f l, filter (λ sl, live sl && f sl) l ≠ [] → 0 < count f l) as Hpos.
  { intros f l Hne. destruct (filter _ l) as [|x l'] eqn:Hfl; [done|].
    assert (x ∈ filter (λ sl, live sl && f sl) l) as Hx by (rewrite Hfl; left).
    apply list_elem_of_filter in Hx as [Hx Hin].
    apply (count_elem f l x Hin). apply andb_prop_elim in Hx as [_ Hx].
    by apply Is_true_eq_true. }
  split; intros Hne%Hpos.
  - destruct st as [n [|]]; simpl in *; [lia|].
    split; [by apply count_none|].
    rewrite getMutablePtr_unfold, Hm. unfold Mutex.is_free. simpl.
    destruct n; [lia|done].
  - destruct st as [n [|]]; simpl in *; [|lia]. destruct Hw as [_ ->].
    split; [apply count_none; lia|].
    by rewrite getMutablePtr_unfold, getConstPtr_unfold, Hm.
Qed.

End Invariants.

(** C7, counterexample: a write guard move-constructed from a guard that
    was already moved from evaluates to false although nothing was ever
    moved from it. *)
Lemma null_guard_never_moved_from :
  ¬ (∀ ops sys sl,
       Guards.run Example.result ops start = Done sys →
       sl ∈ Guards.guards sys →
       Guards.evaluates (Guards.held sl) = false →
       Guards.moved sl = true).
Proof.
  intros Hclaim.
  assert (∃ sys sl,
    Guards.run Example.result [Guards.GetMutablePtr; Guards.Move 0; Guards.Move 0] start
    = Done sys
    ∧ Guards.guards sys !! 2 = Some sl
    ∧ Guards.evaluates (Guards.held sl) = false
    ∧ Guards.moved sl = false) as (sys & sl & Hrun & Hl & He & Hmv).
  { eexists _, _. split; [vm_compute; reflexivity|]. by vm_compute. }
  specialize (Hclaim _ _ sl Hrun (list_elem_of_lookup_2 _ _ _ Hl) He). congruence.
Qed.

(** ** The theorems at the demonstration container *)

Lemma get_of_default_constructed_example :
  ∃ s, Protected.get Example.result Example.defaulted = Done (Example.Build 0 0, s).
Proof. eexists. vm_compute. reflexivity. Qed.

Lemma set_then_get_witness :
  objects Example.defaulted !! Example.temporary = Some (Example.Build 42 69)
  ∧ objects Example.defaulted !! Protected.value_ Example.result = Some (Example.Build 0 0)
  ∧ mutexes Example.defaulted !! Protected.mutex_ Example.result = Some Mutex.unlocked
  ∧ ∃ s' s'', Protected.set Example.result Example.temporary Example.defaulted = Done (tt, s')
      ∧ Protected.get Example.result s' = Done (Example.Build 42 69, s'').
Proof.
  assert (objects Example.defaulted !! Example.temporary = Some (Example.Build 42 69))
    as Hv by (vm_compute; reflexivity).
  assert (objects Example.defaulted !! Protected.value_ Example.result
          = Some (Example.Build 0 0)) as Hp by (vm_compute; reflexivity).
  assert (mutexes Example.defaulted !! Protected.mutex_ Example.result
          = Some Mutex.unlocked) as Hm by (vm_compute; reflexivity).
  split; [exact Hv|]. split; [exact Hp|]. split; [exact Hm|].
  destruct (set_then_get Example.result Example.temporary _ _ _ Hv (mk_is_Some _ _ Hp) Hm)
    as (_ & Hfree & _ & Hget).
  destruct (Hfree eq_refl) as [s' Hset]. exists s'.
  destruct (Hget s' Hset) as (_ & s'' & Hs''). exists s''. split; assumption.
Defined.

Lemma set_rvalue_leaves_argument_witness :
  objects Example.defaulted !! Example.temporary = Some (Example.Build 42 69)
  ∧ ∃ s', Protected.set_rvalue Example.result Example.temporary Example.defaulted = Done (tt, s')
      ∧ objects s' !! Example.temporary = Some (Example.Build 42 69)
      ∧ objects s' !! Protected.value_ Example.result = Some (Example.Build 42 69).
Proof.
  assert (objects Example.defaulted !! Example.temporary = Some (Example.Build 42 69))
    as Hv by (vm_compute; reflexivity).
  split; [exact Hv|].
  apply (set_rvalue_leaves_argument Example.result Example.temporary _ Example.defaulted Hv).
  - exists (Example.Build 0 0). vm_compute. reflexivity.
  - vm_compute. reflexivity.
Defined.

Lemma get_copy_is_independent_witness :
  ∃ s1, Protected.copy_out Example.result 4%positive Example.constructed
        = Done (Example.Build 42 69, s1)
    ∧ ∃ s2, Protected.assign_through_guard Example.result (Example.Build 68 69) s1 = Done (tt, s2)
        ∧ objects s2 !! Protected.value_ Example.result = Some (Example.Build 68 69)
        ∧ objects s2 !! 4%positive = Some (Example.Build 42 69).
Proof.
  destruct (get_copy_is_independent Example.result 4%positive (Example.Build 42 69)
              Example.constructed) as (s1 & Hcopy & _ & _ & Hguard).
  - vm_compute. discriminate.
  - vm_compute. reflexivity.
  - vm_compute. reflexivity.
  - exists s1. split; [exact Hcopy|]. exact (Hguard (Example.Build 68 69)).
Defined.

Lemma scope_exit_releases_once_witness :
  (∃ s3, read_scope Example.result Example.reading_body Example.constructed
         = Done (returned (Example.Build 42 69), s3)
     ∧ log s3 = [(Protected.mutex_ Example.result, Mutex.lock_shared);
                 (Protected.mutex_ Example.result, Mutex.unlock_shared)])
  ∧ (∃ s3, write_scope Example.result Example.throwing_body Example.constructed
           = Done (threw tt, s3)
     ∧ log s3 = [(Protected.mutex_ Example.result, Mutex.lock);
                 (Protected.mutex_ Example.result, Mutex.unlock)]).
Proof.
  destruct (scope_exit_releases_once (A := Example.Point) (E := unit)
              Example.result Example.constructed) as (_ & _ & Hread & Hwrite).
  split.
  - edestruct (Hread Example.reading_body) as (_ & s3 & _ & Hscope & Hlog & _).
    + vm_compute. reflexivity.
    + vm_compute. reflexivity.
    + vm_compute. reflexivity.
    + exists s3. split; [exact Hscope|]. rewrite Hlog. vm_compute. reflexivity.
  - edestruct (Hwrite Example.throwing_body) as (_ & s3 & _ & Hscope & Hlog & _).
    + vm_compute. reflexivity.
    + vm_compute. reflexivity.
    + vm_compute. reflexivity.
    + exists s3. split; [exact Hscope|]. rewrite Hlog. vm_compute. reflexivity.
Defined.

Lemma guard_boolean_state_witness :
  ∃ sys, Guards.run Example.result [Guards.GetMutablePtr; Guards.Move 0; Guards.Move 0] start
         = Done sys
    ∧ ∀ sl, sl ∈ Guards.guards sys →
        Guards.evaluates (Guards.held sl) = false →
        Guards.moved sl = true ∨ Guards.from_null sl = true.
Proof.
  eexists. split; [vm_compute; reflexivity|].
  intros sl Hsl.
  refine (proj2 (proj1 (guard_boolean_state Example.result start
            [Guards.GetMutablePtr; Guards.Move 0; Guards.Move 0] _ _ _) sl Hsl)).
  - reflexivity.
  - vm_compute. reflexivity.
Defined.

Lemma exclusion_without_moves_example :
  ∃ sys, Guards.run Example.result
           [Guards.GetConstPtr; Guards.GetConstPtr; Guards.Destroy 0] start = Done sys
    ∧ Guards.exec Example.result Guards.GetMutablePtr sys = Blocked.
Proof.
  eexists. split; [vm_compute; reflexivity|].
  refine (proj2 (proj1 (exclusion_without_moves Example.result start
            [Guards.GetConstPtr; Guards.GetConstPtr; Guards.Destroy 0] _ _ _ _) _)).
  - repeat split; vm_compute; eauto.
  - reflexivity.
  - vm_compute. reflexivity.
  - vm_compute. discriminate.
Defined.

(** * Further properties of the code *)

Section MoreAccessors.
Context {T : Type} `{Value T}.
Implicit Types (s : State T) (this p : Protected.t) (v w : T).

(** X1: [get()] is read-only: when it returns, the value is the payload, no
    object and no lock has changed, and the only trace is its pair of
    shared lock calls. *)
Theorem get_changes_nothing this s v s' :
  Protected.get this s = Done (v, s') →
  objects s !! Protected.value_ this = Some v
  ∧ objects s' = objects s
  ∧ mutexes s' = mutexes s
  ∧ log s' = log s ++ Protected.shared_lock_unlock this.
Proof.
  rewrite get_unfold.
  destruct (mutexes s !! Protected.mutex_ this) as [st|]; [|done].
  destruct (Mutex.writer st); [done|].
  destruct (objects s !! Protected.value_ this) as [u|]; [|done].
  by intros [= <- <-].
Qed.

(** X2: [set] (either overload) changes the payload and nothing else: the
    payload becomes the argument's value, every other object keeps its
    value, the lock is as before, and the trace is one lock/unlock pair. *)
Theorem set_changes_only_payload this value s s' :
  Protected.set this value s = Done (tt, s') ∨ Protected.set_rvalue this value s = Done (tt, s') →
  is_Some (objects s !! value)
  ∧ objects s' !! Protected.value_ this = objects s !! value
  ∧ (∀ a, a ≠ Protected.value_ this → objects s' !! a = objects s !! a)
  ∧ mutexes s' = mutexes s
  ∧ mutexes s !! Protected.mutex_ this = Some Mutex.unlocked
  ∧ log s' = log s ++ Protected.lock_unlock this.
Proof.
  intros Hset. assert (Protected.set this value s = Done (tt, s')) as Hs by (by destruct Hset).
  clear Hset. rewrite set_unfold in Hs.
  destruct (mutexes s !! Protected.mutex_ this) as [st|] eqn:Hm; [|done].
  destruct (Mutex.is_free st) eqn:Hfree; [|done].
  destruct (objects s !! value) as [v|] eqn:Hv; [|done].
  destruct (objects s !! Protected.value_ this) as [u|]; [|done].
  injection Hs as <-. simpl. split; [eauto|]. split; [by rewrite lookup_insert_eq|].
  split; [intros a Ha; by rewrite lookup_insert_ne|]. split; [done|]. split; [|done].
  destruct st as [n [|]]; [done|]. by destruct n.
Qed.

(* one call of set on a free lock *)
Lemma set_free this value v s :
  mutexes s !! Protected.mutex_ this = Some Mutex.unlocked →
  is_Some (objects s !! Protected.value_ this) →
  objects s !! value = Some v →
  Protected.set this value s
  = Done (tt, mkState (mutexes s) (<[Protected.value_ this := v]> (objects s))
                      (log s ++ Protected.lock_unlock this)).
Proof. intros Hm [u Hu] Hv. by rewrite set_unfold, Hm, Hv, Hu. Qed.

(** X3: the last [set] wins: after a sequence of [set] calls, each completed
    before the next, on a free lock, the payload is the value of the last
    argument, the lock is free again, and [get()] returns that value. *)
Theorem last_set_wins this args last v s :
  mutexes s !! Protected.mutex_ this = Some Mutex.unlocked →
  is_Some (objects s !! Protected.value_ this) →
  Forall (λ a, a ≠ Protected.value_ this ∧ is_Some (objects s !! a)) args →
  last ≠ Protected.value_ this →
  objects s !! last = Some v →
  ∃ s' s'', set_each this (args ++ [last]) s = Done (tt, s')
    ∧ objects s' !! Protected.value_ this = Some v
    ∧ mutexes s' = mutexes s
    ∧ Protected.get this s' = Done (v, s'').
Proof.
  revert s. induction args as [|a args IH]; intros s Hm Hp Hargs Hne Hlast; simpl.
  - monad_unfold. rewrite (set_free _ _ v) by done. simpl.
    eexists _, _. split; [reflexivity|]. simpl. rewrite lookup_insert_eq.
    split; [done|]. split; [done|].
    rewrite get_unfold. simpl. by rewrite Hm, lookup_insert_eq.
  - apply Forall_cons in Hargs as [[Ha [u Hu]] Hargs].
    monad_unfold. rewrite (set_free _ _ u) by done.
    edestruct (IH (mkState (mutexes s) (<[Protected.value_ this := u]> (objects s))
                           (log s ++ Protected.lock_unlock this)))
      as (s' & s'' & Hrun & Hpay & Hmx & Hget); simpl.
    + done.
    + rewrite lookup_insert_eq. eauto.
    + eapply Forall_impl; [exact Hargs|]. intros b [Hb Hsome]. split; [done|].
      by rewrite lookup_insert_ne.
    + done.
    + by rewrite lookup_insert_ne.
    + monad_unfold. eexists _, _. split; [exact Hrun|]. done.
Qed.

(** X4: the constructors from a value: both leave the new container
    unlocked with the argument's value as payload and make no lock call;
    the one from [const T&] leaves the argument as it was, the one from
    [T&&] leaves in it what a move from [T] leaves. *)
Theorem constructors_initialise this value v s :
  objects s !! value = Some v →
  value ≠ Protected.value_ this →
  (∃ s' s'', Protected.ctor_copy this value s = Done (tt, s')
     ∧ mutexes s' !! Protected.mutex_ this = Some Mutex.unlocked
     ∧ objects s' !! Protected.value_ this = Some v
     ∧ objects s' !! value = Some v
     ∧ log s' = log s
     ∧ Protected.get this s' = Done (v, s''))
  ∧ (∃ s' s'', Protected.ctor_move this value s = Done (tt, s')
     ∧ mutexes s' !! Protected.mutex_ this = Some Mutex.unlocked
     ∧ objects s' !! Protected.value_ this = Some v
     ∧ objects s' !! value = Some (moved_from v)
     ∧ log s' = log s
     ∧ Protected.get this s' = Done (v, s'')).
Proof.
  intros Hv Hne. split.
  - unfold Protected.ctor_copy. monad_unfold. simpl. unfold load. simpl. rewrite Hv. simpl.
    eexists _, _. split; [reflexivity|]. simpl.
    rewrite !lookup_insert_eq, lookup_insert_ne, Hv by done.
    repeat (split; [done|]).
    rewrite get_unfold. simpl. by rewrite !lookup_insert_eq.
  - unfold Protected.ctor_move. monad_unfold. simpl. unfold load, store. simpl.
    rewrite Hv. simpl. rewrite lookup_insert_ne, Hv by done.
    eexists _, _. split; [reflexivity|]. simpl.
    rewrite !lookup_insert_eq, lookup_insert_ne, lookup_insert_eq by done.
    repeat (split; [done|]).
    rewrite get_unfold. simpl.
    by rewrite !lookup_insert_eq, lookup_insert_ne, lookup_insert_eq.
Qed.

End MoreAccessors.

Section MoreGuards.
Context {T : Type}.
Implicit Types (s : State T) (p : Protected.t) (v w : T).

(** X5: the public constructors of the guards do not look at the pointer:
    called with a null pointer on a free lock they return a guard that
    evaluates to false and yet holds the lock; dereferencing it is
    undefined, and its destructor releases the lock. *)
Theorem null_guard_from_constructor (m : addr) s :
  mutexes s !! m = Some Mutex.unlocked →
  (∃ g s1 s2, ConstPtr.ctor None m s = Done (g, s1)
     ∧ ConstPtr.operator_bool g = false
     ∧ mutexes s1 !! m = Some {| Mutex.readers := 1; Mutex.writer := false |}
     ∧ ConstPtr.operator_star g s1 = Undefined
     ∧ ConstPtr.dtor g s1 = Done (tt, s2)
     ∧ mutexes s2 !! m = Some Mutex.unlocked)
  ∧ (∃ g s1 s2, MutablePtr.ctor None m s = Done (g, s1)
     ∧ MutablePtr.operator_bool g = false
     ∧ mutexes s1 !! m = Some {| Mutex.readers := 0; Mutex.writer := true |}
     ∧ MutablePtr.operator_star g s1 = Undefined
     ∧ MutablePtr.dtor g s1 = Done (tt, s2)
     ∧ mutexes s2 !! m = Some Mutex.unlocked).
Proof.
  intros Hm. split.
  - unfold ConstPtr.ctor, ConstPtr.dtor. monad_unfold. unfold call_mutex. simpl.
    rewrite Hm. simpl.
    eexists _, _, _. split; [reflexivity|]. simpl. rewrite !lookup_insert_eq. simpl.
    do 3 (split; [done|]). split; [reflexivity|]. simpl. by rewrite lookup_insert_eq.
  - unfold MutablePtr.ctor, MutablePtr.dtor. monad_unfold. unfold call_mutex. simpl.
    rewrite Hm. simpl.
    eexists _, _, _. split; [reflexivity|]. simpl. rewrite !lookup_insert_eq. simpl.
    do 3 (split; [done|]). split; [reflexivity|]. simpl. by rewrite lookup_insert_eq.
Qed.

(** X7: acquiring a guard from the container and destroying it is a round
    trip: the destructor completes and the lock and all objects are as
    before the acquisition; the trace is the matching pair of calls. *)
Theorem guard_round_trip p s :
  (∀ g s1, Protected.getConstPtr p s = Done (g, s1) →
     ∃ s2, ConstPtr.dtor g s1 = Done (tt, s2)
       ∧ mutexes s2 = mutexes s ∧ objects s2 = objects s
       ∧ log s2 = log s ++ Protected.shared_lock_unlock p)
  ∧ (∀ g s1, Protected.getMutablePtr p s = Done (g, s1) →
     ∃ s2, MutablePtr.dtor g s1 = Done (tt, s2)
       ∧ mutexes s2 = mutexes s ∧ objects s2 = objects s
       ∧ log s2 = log s ++ Protected.lock_unlock p).
Proof.
  split; intros g s1.
  - rewrite getConstPtr_unfold.
    destruct (mutexes s !! Protected.mutex_ p) as [st|] eqn:Hm; [|done].
    destruct (Mutex.writer st) eqn:Hw; [done|]. intros [= <- <-].
    erewrite ConstPtr_dtor_held by (simpl; apply lookup_insert_eq).
    eexists. split; [reflexivity|]. simpl.
    rewrite insert_insert_eq, <- assoc_L by apply _. split; [|done].
    apply insert_id. rewrite Hm. f_equal. destruct st. simpl in Hw. by subst.
  - rewrite getMutablePtr_unfold.
    destruct (mutexes s !! Protected.mutex_ p) as [st|] eqn:Hm; [|done].
    destruct (Mutex.is_free st) eqn:Hf; [|done]. intros [= <- <-].
    erewrite MutablePtr_dtor_held by (simpl; apply lookup_insert_eq).
    eexists. split; [reflexivity|]. simpl.
    rewrite insert_insert_eq, <- assoc_L by apply _. split; [|done].
    apply insert_id. rewrite Hm. f_equal. destruct st as [n [|]]; [done|]. by destruct n.
Qed.

(* reading through a fresh read guard, case by case: the same as get() *)
Lemma read_through_guard_unfold p s :
  read_through_guard p s = Protected.get p s.
Proof.
  rewrite get_unfold. unfold read_through_guard. monad_unfold.
  rewrite getConstPtr_unfold.
  destruct (mutexes s !! Protected.mutex_ p) as [st|] eqn:Hm; [|done].
  destruct (Mutex.writer st) eqn:Hw; [done|]. simpl.
  unfold load. simpl.
  destruct (objects s !! Protected.value_ p) as [v|]; [|done]. simpl.
  unfold ConstPtr.dtor, call_mutex. simpl. rewrite lookup_insert_eq. simpl.
  rewrite insert_insert_eq, <- assoc_L by apply _.
  do 3 f_equal. apply insert_id. rewrite Hm. f_equal. destruct st. simpl in Hw. by subst.
Qed.

(** X8: the copying accessors do what the guards do: [get()] equals reading
    through a read guard in a scope of its own, and [set] of an argument
    holding [v] equals assigning [v] through a write guard in a scope of
    its own: same result, same store, same lock calls, and the same waiting
    or undefined cases. *)
Theorem accessors_are_scoped_guards p s :
  read_through_guard p s = Protected.get p s
  ∧ (∀ value v, objects s !! value = Some v →
       Protected.set p value s = Protected.assign_through_guard p v s
       ∧ Protected.set_rvalue p value s = Protected.assign_through_guard p v s).
Proof.
  split; [apply read_through_guard_unfold|].
  intros value v Hv.
  cut (Protected.set p value s = Protected.assign_through_guard p v s).
  { intros Heq. split; [exact Heq|]. rewrite <- Heq. reflexivity. }
  rewrite set_unfold, Hv.
  unfold Protected.assign_through_guard. monad_unfold. rewrite getMutablePtr_unfold.
  destruct (mutexes s !! Protected.mutex_ p) as [st|] eqn:Hm; [|done].
  destruct (Mutex.is_free st) eqn:Hf; [|done]. simpl.
  unfold store. simpl.
  destruct (objects s !! Protected.value_ p) as [u|]; [|done]. simpl.
  unfold MutablePtr.dtor, call_mutex. simpl. rewrite lookup_insert_eq. simpl.
  rewrite insert_insert_eq, <- assoc_L by apply _.
  do 3 f_equal. symmetry. apply insert_id. rewrite Hm. f_equal.
  destruct st as [n [|]]; [done|]. by destruct n.
Qed.

(** X9: a write through a write guard is what the next reader sees: after
    an assignment of [w] through a write guard on a free lock, [get()] and
    a read through a read guard both return [w]. *)
Theorem write_through_guard_then_read p w s :
  mutexes s !! Protected.mutex_ p = Some Mutex.unlocked →
  is_Some (objects s !! Protected.value_ p) →
  ∃ s1 s2, Protected.assign_through_guard p w s = Done (tt, s1)
    ∧ Protected.get p s1 = Done (w, s2)
    ∧ read_through_guard p s1 = Done (w, s2).
Proof.
  intros Hm Hp. rewrite assign_through_guard_free by done.
  eexists _, _. split; [reflexivity|].
  rewrite read_through_guard_unfold, get_unfold. simpl.
  by rewrite Hm, lookup_insert_eq.
Qed.

(** X10: calls of other threads beside a guard.  While one thread's read
    guard obtained from the container is alive, another thread's [get()]
    and [getConstPtr()] complete, and its [set] and [getMutablePtr()] wait;
    while one thread's write guard is alive, all four calls of another
    thread wait.  (The lock has no owner here: nothing is said of a thread
    that calls inside the scope of its own guard.) *)
Theorem calls_beside_a_live_guard p value v s :
  mutexes s !! Protected.mutex_ p = Some Mutex.unlocked →
  objects s !! Protected.value_ p = Some v →
  is_Some (objects s !! value) →
  (∃ g s1, Protected.getConstPtr p s = Done (g, s1)
     ∧ (∃ s2, Protected.get p s1 = Done (v, s2))
     ∧ (∃ g2 s2, Protected.getConstPtr p s1 = Done (g2, s2))
     ∧ Protected.set p value s1 = Blocked
     ∧ Protected.set_rvalue p value s1 = Blocked
     ∧ Protected.getMutablePtr p s1 = Blocked)
  ∧ (∃ g s1, Protected.getMutablePtr p s = Done (g, s1)
     ∧ Protected.get p s1 = Blocked
     ∧ Protected.getConstPtr p s1 = Blocked
     ∧ Protected.set p value s1 = Blocked
     ∧ Protected.set_rvalue p value s1 = Blocked
     ∧ Protected.getMutablePtr p s1 = Blocked).
Proof.
  intros Hm Hv Ha. split.
  - rewrite getConstPtr_unfold, Hm. simpl. eexists _, _. split; [reflexivity|].
    rewrite set_unfold, set_rvalue_eq, get_unfold, set_unfold, getConstPtr_unfold,
      getMutablePtr_unfold.
    simpl. rewrite lookup_insert_eq, Hv. simpl. eauto 10.
  - rewrite getMutablePtr_unfold, Hm. simpl. eexists _, _. split; [reflexivity|].
    rewrite set_unfold, set_rvalue_eq, get_unfold, set_unfold, getConstPtr_unfold,
      getMutablePtr_unfold.
    simpl. rewrite lookup_insert_eq. simpl. done.
Qed.

End MoreGuards.

Section MoreInterleavings.
Import Guards.
Context {T : Type}.
Variable p : Protected.t.
Implicit Types (sys : System (T := T)) (l : list slot) (sl : slot).

Lemma count_insert f l i sl sl' :
  l !! i = Some sl → f sl' = f sl → count f (<[i := sl']> l) = count f l.
Proof.
  revert i. induction l as [|x l IH]; intros [|i] Hi Hf; simplify_eq/=; [by rewrite Hf|].
  by rewrite (IH i).
Qed.

Lemma length_filter_live f l :
  Forall (λ sl, moved sl = false ∧ guard_mutex (held sl) = Protected.mutex_ p) l →
  length (filter (λ sl, live sl && f sl) l) = count f l.
Proof.
  induction 1 as [|x l [Hx _] _ IH]; [done|].
  rewrite filter_cons. cbn [count]. rewrite <- IH.
  assert (live x = true) as Hlive by (unfold live; by rewrite Hx).
  case_decide as Hd; rewrite Hlive in Hd; simpl in Hd.
  - apply Is_true_eq_true in Hd. by rewrite Hd.
  - destruct (f x); [by destruct Hd|done].
Qed.

(* n calls of getConstPtr in a row on a lock that is not held exclusively *)
Lemma run_readers n sys k :
  mutexes (memory sys) !! Protected.mutex_ p
    = Some {| Mutex.readers := k; Mutex.writer := false |} →
  ∃ sys', run p (replicate n GetConstPtr) sys = Done sys'
    ∧ mutexes (memory sys') !! Protected.mutex_ p
      = Some {| Mutex.readers := k + n; Mutex.writer := false |}
    ∧ objects (memory sys') = objects (memory sys)
    ∧ guards sys'
      = guards sys
        ++ replicate n (fresh (Reader {| ConstPtr.obj_ := Some (Protected.value_ p);
                                         ConstPtr.mutex_ := Protected.mutex_ p |})).
Proof.
  revert sys k. induction n as [|n IH]; intros sys k Hm; simpl.
  - eexists. split; [done|]. rewrite Nat.add_0_r, app_nil_r. done.
  - rewrite getConstPtr_unfold, Hm. simpl.
    match goal with |- context [run _ _ ?sys1] =>
      destruct (IH sys1 (S k)) as (sys' & Hrun & Hm' & Hobj & Hg);
        [simpl; apply lookup_insert_eq|]
    end.
    exists sys'. split; [exact Hrun|]. simpl in *.
    rewrite Hm', Hobj, Hg, <- assoc_L by apply _.
    split; [f_equal; f_equal; lia|done].
Qed.

(** X11: readers share the lock: on a container whose lock is free, any
    number [n] of [getConstPtr()] calls complete without one waiting for
    another; afterwards the lock has [n] shared holders, [n] read guards
    that evaluate to true are in scope, and a writer has to wait exactly
    when [n] is not zero. *)
Theorem readers_share_the_lock sys0 n :
  initial p sys0 →
  ∃ sys, run p (replicate n GetConstPtr) sys0 = Done sys
    ∧ mutexes (memory sys) !! Protected.mutex_ p
      = Some {| Mutex.readers := n; Mutex.writer := false |}
    ∧ length (guards sys) = n
    ∧ Forall (λ sl, evaluates (held sl) = true ∧ is_reader sl = true) (guards sys)
    ∧ (n ≠ 0 → exec p GetMutablePtr sys = Blocked)
    ∧ (n = 0 → ∃ sys', exec p GetMutablePtr sys = Done sys').
Proof.
  intros (Hm & _ & Hnil).
  destruct (run_readers n sys0 0 Hm) as (sys & Hrun & Hm' & _ & Hg).
  exists sys. split; [done|]. rewrite Hnil in Hg. simpl in *.
  split; [done|]. rewrite Hg, length_replicate. split; [done|].
  split; [by apply Forall_replicate|]. simpl.
  rewrite getMutablePtr_unfold, Hm'. unfold Mutex.is_free. simpl.
  split; intros Hn; destruct n; try done. eauto.
Qed.

(** X12: without moves of guards the lock agrees with the guards in scope:
    in every interleaving of factory calls and destructions from an unlocked
    container, the number of shared holders of the lock is the number of
    read guards in scope, and the lock is held exclusively exactly when one
    write guard is in scope (and none otherwise). *)
Theorem lock_agrees_with_guards sys0 ops sys :
  initial p sys0 →
  move_free ops = true →
  run p ops sys0 = Done sys →
  ∃ st, mutexes (memory sys) !! Protected.mutex_ p = Some st
    ∧ Mutex.readers st = length (live_readers sys)
    ∧ length (live_writers sys) = (if Mutex.writer st then 1 else 0)
    ∧ length (live_readers sys) + length (live_writers sys) = length (guards sys).
Proof.
  intros Hinit Hfree Hrun.
  destruct (run_consistent _ _ _ _ Hfree Hrun (initial_consistent _ _ Hinit))
    as (st & Hm & Hall & Hr & Hw).
  exists st. split; [done|]. unfold live_readers, live_writers.
  rewrite !(length_filter_live _ _ Hall).
  split; [done|]. split; [by destruct (Mutex.writer st) as [|]; [destruct Hw|]|].
  clear. induction (guards sys) as [|[[g|g] mv fn] l IH]; simpl; [done|lia|lia].
Qed.

(** X13: without moves of guards every guard in scope can be destroyed: in
    every interleaving of factory calls and destructions from an unlocked
    container, the destruction of any guard in scope completes (it neither
    waits nor is undefined), removes that guard and touches no object. *)
Theorem destruction_is_defined_without_moves sys0 ops sys i :
  initial p sys0 →
  move_free ops = true →
  run p ops sys0 = Done sys →
  i < length (guards sys) →
  ∃ sys', exec p (Destroy i) sys = Done sys'
    ∧ guards sys' = delete i (guards sys)
    ∧ objects (memory sys') = objects (memory sys).
Proof.
  intros Hinit Hfree Hrun Hi.
  destruct (run_consistent _ _ _ _ Hfree Hrun (initial_consistent _ _ Hinit))
    as (st & Hm & Hall & Hr & Hw).
  destruct (lookup_lt_is_Some_2 _ _ Hi) as [sl Hsl].
  destruct (Forall_lookup_1 _ _ _ _ Hall Hsl) as [_ Hmx].
  simpl. rewrite Hsl.
  rewrite (count_delete is_reader _ _ _ Hsl) in Hr.
  rewrite (count_delete is_writer _ _ _ Hsl) in Hw.
  destruct sl as [[g|g] mv fn]; simpl in *.
  - unfold ConstPtr.dtor, call_mutex. rewrite Hmx, Hm. simpl.
    unfold Mutex.do_unlock_shared. rewrite Hr. simpl. eauto.
  - unfold MutablePtr.dtor, call_mutex. rewrite Hmx, Hm. simpl.
    unfold Mutex.do_unlock. destruct (Mutex.writer st); [|lia]. eauto.
Qed.

(* every step, moves included, keeps the holders of the lock covered *)
Lemma exec_covered o sys sys' :
  exec p o sys = Done sys' → covered p sys → covered p sys'.
Proof.
  intros Hexec (st & Hm & Hall & Hr & Hw).
  destruct o as [| |i|i]; simpl in Hexec.
  - rewrite getConstPtr_unfold, Hm in Hexec.
    destruct (Mutex.writer st) eqn:Hwr; [done|]. injection Hexec as <-.
    eexists. simpl. split; [apply lookup_insert_eq|].
    split; [apply Forall_app_2; [done|by apply Forall_singleton]|].
    simpl. rewrite !count_app. simpl. split; [lia|done].
  - rewrite getMutablePtr_unfold, Hm in Hexec.
    destruct (Mutex.is_free st) eqn:Hf; [|done]. injection Hexec as <-.
    eexists. simpl. split; [apply lookup_insert_eq|].
    split; [apply Forall_app_2; [done|by apply Forall_singleton]|].
    simpl. rewrite !count_app. simpl. split; lia.
  - destruct (guards sys !! i) as [sl|] eqn:Hi; [|done].
    pose proof (Forall_lookup_1 _ _ _ _ Hall Hi) as Hmx.
    exists st.
    destruct sl as [[[o m]|[o m]] mv fn]; simpl in *; injection Hexec as <-; simpl;
      (split; [done|]);
      (split; [apply Forall_app_2; [by apply Forall_insert|by apply Forall_singleton]|]);
      rewrite !count_app; simpl;
      rewrite !(count_insert _ _ _ _ _ Hi) by done;
      (split; [lia|]); intros Hwt; specialize (Hw Hwt); lia.
  - destruct (guards sys !! i) as [sl|] eqn:Hi; [|done].
    pose proof (Forall_lookup_1 _ _ _ _ Hall Hi) as Hmx. simpl in Hmx.
    rewrite (count_delete is_reader _ _ _ Hi) in Hr.
    rewrite (count_delete is_writer _ _ _ Hi) in Hw.
    destruct sl as [[g|g] mv fn]; simpl in *.
    + unfold ConstPtr.dtor, call_mutex in Hexec. rewrite Hmx, Hm in Hexec. simpl in Hexec.
      unfold Mutex.do_unlock_shared in Hexec.
      destruct st as [[|n] w]; [done|]. simpl in *. injection Hexec as <-.
      eexists. simpl. split; [apply lookup_insert_eq|].
      split; [by apply Forall_delete|]. simpl. split; [lia|done].
    + unfold MutablePtr.dtor, call_mutex in Hexec. rewrite Hmx, Hm in Hexec. simpl in Hexec.
      unfold Mutex.do_unlock in Hexec.
      destruct st as [n [|]]; [|done]. simpl in *. injection Hexec as <-.
      eexists. simpl. split; [apply lookup_insert_eq|].
      split; [by apply Forall_delete|]. simpl. split; [lia|done].
Qed.

Lemma run_covered ops sys sys' :
  run p ops sys = Done sys' → covered p sys → covered p sys'.
Proof.
  revert sys. induction ops as [|o ops IH]; intros sys Hrun Hcov; simpl in Hrun.
  - by injection Hrun as <-.
  - destruct (exec p o sys) as [sys1| | |] eqn:Hexec; [|done..].
    eapply IH; [done|]. by eapply exec_covered.
Qed.

(** X14: the lock is never held without a guard in scope to release it,
    moves included: in every interleaving of factory calls, move
    constructions and destructions from an unlocked container, the shared
    holders are no more than the read guards in scope and an exclusive
    holder has a write guard in scope; so once every guard has been
    destroyed the lock is free. *)
Theorem no_guard_no_lock sys0 ops sys :
  initial p sys0 →
  run p ops sys0 = Done sys →
  ∃ st, mutexes (memory sys) !! Protected.mutex_ p = Some st
    ∧ Mutex.readers st ≤ count is_reader (guards sys)
    ∧ (Mutex.writer st = true → 1 ≤ count is_writer (guards sys))
    ∧ (guards sys = [] → st = Mutex.unlocked).
Proof.
  intros (Hm & _ & Hnil) Hrun.
  assert (covered p sys0) as Hcov.
  { exists Mutex.unlocked. rewrite Hnil. simpl. repeat split; [done|constructor|lia|done]. }
  destruct (run_covered _ _ _ Hrun Hcov) as (st & Hm' & _ & Hr & Hw).
  exists st. repeat (split; [done|]). intros Hg. rewrite Hg in *. simpl in *.
  destruct st as [n [|]]; simpl in *; [specialize (Hw eq_refl); lia|].
  f_equal. lia.
Qed.

End MoreInterleavings.

(** ** The further properties at the demonstration container *)

Lemma initial_start : Guards.initial Example.result start.
Proof. repeat split; vm_compute; eauto. Defined.

Lemma get_changes_nothing_witness :
  ∃ s', Protected.get Example.result Example.constructed = Done (Example.Build 42 69, s')
    ∧ objects s' = objects Example.constructed
    ∧ mutexes s' = mutexes Example.constructed.
Proof.
  eexists. split; [vm_compute; reflexivity|].
  match goal with |- objects ?s' = _ ∧ _ =>
    destruct (get_changes_nothing Example.result Example.constructed (Example.Build 42 69) s')
      as (_ & Hobj & Hmx & _)
  end.
  - vm_compute. reflexivity.
  - split; assumption.
Defined.

Lemma set_changes_only_payload_witness :
  ∃ s', Protected.set Example.result 4%positive two_arguments = Done (tt, s')
    ∧ objects s' !! Protected.value_ Example.result = Some (Example.Build 42 69)
    ∧ objects s' !! 3%positive = Some (Example.Build 1 2)
    ∧ mutexes s' = mutexes two_arguments.
Proof.
  eexists. split; [vm_compute; reflexivity|].
  match goal with |- objects ?s' !! _ = _ ∧ _ =>
    destruct (set_changes_only_payload Example.result 4%positive two_arguments s')
      as (_ & Hpay & Hother & Hmx & _)
  end.
  - left. vm_compute. reflexivity.
  - split; [rewrite Hpay; vm_compute; reflexivity|].
    split; [rewrite Hother by (vm_compute; discriminate); vm_compute; reflexivity|].
    exact Hmx.
Defined.

Lemma last_set_wins_witness :
  ∃ s' s'', set_each Example.result [3%positive; 4%positive] two_arguments = Done (tt, s')
    ∧ Protected.get Example.result s' = Done (Example.Build 42 69, s'').
Proof.
  destruct (last_set_wins Example.result [3%positive] 4%positive (Example.Build 42 69)
              two_arguments) as (s' & s'' & Hrun & _ & _ & Hget).
  - vm_compute. reflexivity.
  - eexists. vm_compute. reflexivity.
  - apply Forall_singleton. split; [vm_compute; discriminate|].
    eexists. vm_compute. reflexivity.
  - vm_compute. discriminate.
  - vm_compute. reflexivity.
  - exists s', s''. split; assumption.
Defined.

Lemma constructors_initialise_witness :
  (∃ s', Protected.ctor_copy (Protected.Build 5%positive 6%positive) 4%positive two_arguments = Done (tt, s')
     ∧ objects s' !! 6%positive = Some (Example.Build 42 69)
     ∧ objects s' !! 4%positive = Some (Example.Build 42 69))
  ∧ (∃ s', Protected.ctor_move (Protected.Build 5%positive 6%positive) 4%positive two_arguments = Done (tt, s')
     ∧ objects s' !! 6%positive = Some (Example.Build 42 69)).
Proof.
  destruct (constructors_initialise (Protected.Build 5%positive 6%positive) 4%positive (Example.Build 42 69)
              two_arguments) as [(s1 & _ & H1 & _ & Hp1 & Ha1 & _) (s2 & _ & H2 & _ & Hp2 & _)].
  - vm_compute. reflexivity.
  - vm_compute. discriminate.
  - split; [exists s1|exists s2]; repeat split; assumption.
Defined.

Lemma null_guard_from_constructor_witness :
  ∃ g s1, ConstPtr.ctor None 1%positive Example.constructed = Done (g, s1)
    ∧ ConstPtr.operator_bool g = false
    ∧ mutexes s1 !! 1%positive = Some {| Mutex.readers := 1; Mutex.writer := false |}.
Proof.
  destruct (null_guard_from_constructor 1%positive Example.constructed)
    as [(g & s1 & _ & Hc & Hb & Hm & _) _].
  - vm_compute. reflexivity.
  - exists g, s1. repeat split; assumption.
Defined.

Lemma guard_round_trip_witness :
  ∃ g s1 s2, Protected.getMutablePtr Example.result Example.constructed = Done (g, s1)
    ∧ MutablePtr.dtor g s1 = Done (tt, s2)
    ∧ mutexes s2 = mutexes Example.constructed.
Proof.
  eexists _, _. 
  match goal with |- ∃ s2, _ = Done (?g, ?s1) ∧ _ =>
    assert (Protected.getMutablePtr Example.result Example.constructed = Done (g, s1)) as Hget
      by (vm_compute; reflexivity);
    destruct (proj2 (guard_round_trip Example.result Example.constructed) g s1 Hget)
      as (s2 & Hd & Hmx & _)
  end.
  exists s2. repeat split; assumption.
Defined.

Lemma accessors_are_scoped_guards_witness :
  objects two_arguments !! 4%positive = Some (Example.Build 42 69)
  ∧ Protected.set Example.result 4%positive two_arguments
    = Protected.assign_through_guard Example.result (Example.Build 42 69) two_arguments.
Proof.
  assert (objects two_arguments !! 4%positive = Some (Example.Build 42 69)) as Hv
    by (vm_compute; reflexivity).
  split; [exact Hv|].
  exact (proj1 (proj2 (accessors_are_scoped_guards Example.result two_arguments) _ _ Hv)).
Defined.

Lemma write_through_guard_then_read_witness :
  ∃ s1 s2, Protected.assign_through_guard Example.result (Example.Build 68 69)
             Example.constructed = Done (tt, s1)
    ∧ Protected.get Example.result s1 = Done (Example.Build 68 69, s2).
Proof.
  destruct (write_through_guard_then_read Example.result (Example.Build 68 69)
              Example.constructed) as (s1 & s2 & Hw & Hg & _).
  - vm_compute. reflexivity.
  - eexists. vm_compute. reflexivity.
  - exists s1, s2. split; assumption.
Defined.

Lemma calls_beside_a_live_guard_witness :
  ∃ g s1, Protected.getConstPtr Example.result two_arguments = Done (g, s1)
    ∧ (∃ s2, Protected.get Example.result s1 = Done (Example.Build 0 0, s2))
    ∧ Protected.set Example.result 4%positive s1 = Blocked.
Proof.
  destruct (calls_beside_a_live_guard Example.result 4%positive (Example.Build 0 0)
              two_arguments) as [(g & s1 & Hget & Hread & _ & Hset & _) _].
  - vm_compute. reflexivity.
  - vm_compute. reflexivity.
  - eexists. vm_compute. reflexivity.
  - exists g, s1. repeat split; assumption.
Defined.

Lemma readers_share_the_lock_witness :
  ∃ sys, Guards.run Example.result (replicate 3 Guards.GetConstPtr) start = Done sys
    ∧ length (Guards.guards sys) = 3
    ∧ Guards.exec Example.result Guards.GetMutablePtr sys = Blocked.
Proof.
  destruct (readers_share_the_lock Example.result start 3 initial_start)
    as (sys & Hrun & _ & Hlen & _ & Hblock & _).
  exists sys. split; [exact Hrun|]. split; [exact Hlen|]. by apply Hblock.
Defined.

Lemma lock_agrees_with_guards_witness :
  ∃ sys st,
    Guards.run Example.result
      [Guards.GetConstPtr; Guards.GetConstPtr; Guards.Destroy 0; Guards.Destroy 0;
       Guards.GetMutablePtr] start = Done sys
    ∧ mutexes (Guards.memory sys) !! Protected.mutex_ Example.result = Some st
    ∧ Mutex.readers st = length (Guards.live_readers sys)
    ∧ length (Guards.live_writers sys) = (if Mutex.writer st then 1 else 0).
Proof.
  eexists.
  match goal with |- ∃ st, Guards.run _ ?ops _ = Done ?sys ∧ _ =>
    assert (Guards.run Example.result ops start = Done sys) as Hrun
      by (vm_compute; reflexivity);
    destruct (lock_agrees_with_guards Example.result start ops sys initial_start eq_refl Hrun)
      as (st & Hm & Hr & Hw & _)
  end.
  exists st. repeat split; assumption.
Defined.

Lemma destruction_is_defined_without_moves_witness :
  ∃ sys sys',
    Guards.run Example.result [Guards.GetConstPtr; Guards.GetConstPtr] start = Done sys
    ∧ Guards.exec Example.result (Guards.Destroy 1) sys = Done sys'
    ∧ Guards.guards sys' = delete 1 (Guards.guards sys).
Proof.
  eexists.
  match goal with |- ∃ sys', Guards.run _ ?ops _ = Done ?sys ∧ _ =>
    assert (Guards.run Example.result ops start = Done sys) as Hrun
      by (vm_compute; reflexivity);
    destruct (destruction_is_defined_without_moves Example.result start ops sys 1
                initial_start eq_refl Hrun) as (sys' & Hd & Hg & _)
  end.
  - vm_compute. lia.
  - exists sys'. repeat split; assumption.
Defined.

Lemma no_guard_no_lock_witness :
  ∃ sys,
    Guards.run Example.result
      [Guards.GetConstPtr; Guards.GetConstPtr; Guards.Destroy 1; Guards.Destroy 0] start
    = Done sys
    ∧ Guards.guards sys = []
    ∧ mutexes (Guards.memory sys) !! Protected.mutex_ Example.result = Some Mutex.unlocked.
Proof.
  eexists.
  match goal with |- Guards.run _ ?ops _ = Done ?sys ∧ _ =>
    assert (Guards.run Example.result ops start = Done sys) as Hrun
      by (vm_compute; reflexivity);
    destruct (no_guard_no_lock Example.result start ops sys initial_start Hrun)
      as (st & Hm & _ & _ & Hfree)
  end.
  split; [exact Hrun|]. split; [reflexivity|]. rewrite Hm. f_equal. by apply Hfree.
Defined.
